(** * starboard-ai: the PDF field extractor of [app.py]

  A shallow embedding of [app.py] and the properties of its natural-language
  specification.

  Python strings are sequences of Unicode code points; they are modelled as
  lists of [N].  The regular expressions of the source are written as
  abstract syntax and run by a backtracking matcher with the priorities of
  Python's [re] module (leftmost start, greedy repetition, ordered
  alternation).  The Unicode tables are those of CPython 3.11
  (Unicode 14.0). *)

From Stdlib Require Import String Ascii.
From Stdlib Require Import List NArith ZArith Bool Arith Lia.
Import ListNotations.



(** ** Strings *)

(** A Python [str]: a list of code points. *)
Abbreviation str := (list N).

(** The code points of an ASCII literal. *)
Definition u (x : string) : str := map N_of_ascii (list_ascii_of_string x).

Module Str.

Definition eqb (a b : str) : bool :=
  if list_eq_dec N.eq_dec a b then true else false.

(** [s.replace(old, new)] where [old] is one character. *)
Definition replace_char (old : N) (new : str) (s : str) : str :=
  flat_map (fun c => if N.eqb c old then new else [c]) s.

(** [" ".join(parts)] and friends. *)
Fixpoint join (sep : str) (parts : list str) : str :=
  match parts with
  | [] => []
  | [p] => p
  | p :: ps => p ++ sep ++ join sep ps
  end.

End Str.


(** ** Character classes *)

Module Char.

Open Scope N_scope.

Definition LF : N := 10.
Definition SPACE : N := 32.
Definition COMMA : N := 44.

(** Code points of the exceptional case pairs met by the patterns. *)
Definition CAPITAL_I_DOT : N := 304.   (* U+0130 *)
Definition DOTLESS_I : N := 305.       (* U+0131 *)
Definition LONG_S : N := 383.          (* U+017F *)
Definition COMBINING_DOT : N := 775.   (* U+0307 *)
Definition KELVIN : N := 8490.         (* U+212A *)

Definition in_range (lo hi c : N) : bool := (lo <=? c) && (c <=? hi).

(** [[A-Z]] *)
Definition is_upper_az (c : N) : bool := in_range 65 90 c.
Definition is_lower_az (c : N) : bool := in_range 97 122 c.

(** [\s] on [str] patterns, which is also what [str.strip] removes:
    [Py_UNICODE_ISSPACE]. *)
Definition is_space (c : N) : bool :=
  in_range 9 13 c || in_range 28 32 c || (c =? 133) || (c =? 160)
  || (c =? 5760) || in_range 8192 8202 c || (c =? 8232) || (c =? 8233)
  || (c =? 8239) || (c =? 8287) || (c =? 12288).

(** [\d] on [str] patterns: the decimal digits (category Nd).  Every run
    of ten consecutive code points below starts at the digit zero of a
    script. *)
Definition digit_zeros : list N :=
  [48; 1632; 1776; 1984; 2406; 2534; 2662; 2790; 2918; 3046; 3174; 3302;
   3430; 3558; 3664; 3792; 3872; 4160; 4240; 6112; 6160; 6470; 6608; 6784;
   6800; 6992; 7088; 7232; 7248; 42528; 43216; 43264; 43472; 43504; 43600;
   44016; 65296; 66720; 68912; 69734; 69872; 69942; 70096; 70384; 70736;
   70864; 71248; 71360; 71472; 71904; 72016; 72784; 73040; 73120; 92768;
   92864; 93008; 120782; 120792; 120802; 120812; 120822; 123200; 123632;
   125264; 130032].

(** The decimal value of a digit, [None] for any other character. *)
Definition digit_value (c : N) : option N :=
  match find (fun z => in_range z (z + 9) c) digit_zeros with
  | Some z => Some (c - z)
  | None => None
  end.

Definition is_digit (c : N) : bool :=
  match digit_value c with Some _ => true | None => false end.

(** *** Case mappings

    The case mappings are applied by [parse_key_data] to captured groups
    only.  They are given on ASCII, on white space and on the four non-ASCII
    characters that the case-insensitive literals of the patterns accept;
    lemma [captured_in_domain] below shows that no other character reaches
    them. *)

(** [_sre.unicode_tolower]: the simple lower-case mapping. *)
Definition sre_lower (c : N) : N :=
  if is_upper_az c then c + 32
  else if c =? CAPITAL_I_DOT then 105
  else if c =? KELVIN then 107
  else c.

(** [sre_compile._ignorecase_fixes]: lower-case characters with the same
    upper case as the key. *)
Definition ignorecase_fixes (lo : N) : list N :=
  if lo =? 105 then [DOTLESS_I]
  else if lo =? 115 then [LONG_S]
  else [].

(** A literal [c] compiled under [re.IGNORECASE]: [x] is accepted when its
    lower case is that of [c] or one of its fixes.  A character without
    case accepts itself only. *)
Definition matches_ignorecase (c x : N) : bool :=
  let lo := sre_lower c in
  (sre_lower x =? lo) || existsb (N.eqb (sre_lower x)) (ignorecase_fixes lo).

Definition is_cased (c : N) : bool :=
  is_upper_az c || is_lower_az c || (c =? CAPITAL_I_DOT) || (c =? DOTLESS_I)
  || (c =? LONG_S) || (c =? KELVIN).

(** [str.lower] of one character (full mapping). *)
Definition lower (c : N) : list N :=
  if is_upper_az c then [c + 32]
  else if c =? CAPITAL_I_DOT then [105; COMBINING_DOT]
  else if c =? KELVIN then [107]
  else [c].

(** [str.upper] of one character. *)
Definition upper (c : N) : list N :=
  if is_lower_az c then [c - 32]
  else if c =? DOTLESS_I then [73]
  else if c =? LONG_S then [83]
  else [c].

(** The title-case mapping of one character. *)
Definition title (c : N) : list N :=
  if is_lower_az c then [c - 32]
  else if c =? DOTLESS_I then [73]
  else if c =? LONG_S then [83]
  else [c].

(** The characters on which the mappings above are those of CPython. *)
Definition in_domain (c : N) : bool :=
  (c <? 128) || is_space c || (c =? CAPITAL_I_DOT) || (c =? DOTLESS_I)
  || (c =? LONG_S) || (c =? KELVIN).

End Char.

(** ** String methods *)

Module PyStr.

(** [s.upper()] *)
Definition upper (s : str) : str := flat_map Char.upper s.

(** [s.title()]: a character that follows a cased character is lowered,
    any other is title-cased. *)
Fixpoint title_from (previous_is_cased : bool) (s : str) : str :=
  match s with
  | [] => []
  | c :: s' =>
      (if previous_is_cased then Char.lower c else Char.title c)
        ++ title_from (Char.is_cased c) s'
  end.

Definition title (s : str) : str := title_from false s.

Fixpoint lstrip (s : str) : str :=
  match s with
  | c :: s' => if Char.is_space c then lstrip s' else s
  | [] => []
  end.

(** [s.strip()] *)
Definition strip (s : str) : str := rev (lstrip (rev (lstrip s))).

(** CPython's default limit on the digits of a string converted by [int]
    ([sys.int_info.default_max_str_digits]). *)
Definition int_max_str_digits : nat := 4300.

Fixpoint digits_value (acc : N) (s : str) : option N :=
  match s with
  | [] => Some acc
  | c :: s' =>
      match Char.digit_value c with
      | Some d => digits_value (10 * acc + d)%N s'
      | None => None
      end
  end.

(** [int(s)] on the strings [parse_key_data] passes to it, which hold
    decimal digits only: [None] stands for [ValueError], raised on the
    empty string and beyond the digit limit. *)
Definition int (s : str) : option Z :=
  match s with
  | [] => None
  | _ =>
      if Nat.ltb int_max_str_digits (length s) then None
      else option_map Z.of_N (digits_value 0%N s)
  end.

End PyStr.


(** ** Regular expressions: the fragment of [re] used by [app.py] *)

Module Re.

(** Sets of characters. *)
Inductive charset : Type :=
| Lit (c : N)              (* a literal character *)
| LitI (c : N)             (* a literal character under [re.IGNORECASE] *)
| Range (lo hi : N)        (* [[lo-hi]] *)
| Space                    (* [\s] *)
| Digit                    (* [\d] *)
| Union (a b : charset).   (* [[ab]] *)

Fixpoint mem (cs : charset) (x : N) : bool :=
  match cs with
  | Lit c => N.eqb x c
  | LitI c => Char.matches_ignorecase c x
  | Range lo hi => Char.in_range lo hi x
  | Space => Char.is_space x
  | Digit => Char.is_digit x
  | Union a b => mem a x || mem b x
  end.

Inductive regex : Type :=
| Eps
| Chr (cs : charset)
| Seq (a b : regex)
| Alt (a b : regex)        (* [a|b], [a] tried first *)
| Star (a : regex)         (* [a*], greedy *)
| Group (i : nat) (a : regex).

(** [a+], [a{1,}] *)
Definition Plus (a : regex) : regex := Seq a (Star a).

(** [a?], greedy *)
Definition Opt (a : regex) : regex := Alt a Eps.

(** A literal string under [re.IGNORECASE]. *)
Fixpoint lit_i (s : str) : regex :=
  match s with
  | [] => Eps
  | c :: s' => Seq (Chr (LitI c)) (lit_i s')
  end.

(** The matcher threads the text still to read and the groups captured so
    far, most recent first. *)
Abbreviation captures := (list (nat * str)).
Abbreviation state := (str * captures)%type.

(** The text read between two states of one match. *)
Definition consumed (before after : str) : str :=
  firstn (length before - length after) before.

(** Greedy repetition of [body]: the results that repeat once more come
    before the result that stops.  An iteration that reads nothing is not
    repeated. *)
Fixpoint star_loop (body : state -> list state) (fuel : nat) (st : state)
  : list state :=
  match fuel with
  | O => [st]
  | S n =>
      flat_map
        (fun st' =>
           if length (fst st') <? length (fst st)
           then star_loop body n st' else [])
        (body st)
      ++ [st]
  end.

(** [run r st]: every way [r] matches at the head of the text of [st], in
    the order in which a backtracking matcher tries them.  The first one is
    the match that [re] reports. *)
Fixpoint run (r : regex) (st : state) : list state :=
  match r with
  | Eps => [st]
  | Chr cs =>
      match fst st with
      | c :: s' => if mem cs c then [(s', snd st)] else []
      | [] => []
      end
  | Seq a b => flat_map (run b) (run a st)
  | Alt a b => run a st ++ run b st
  | Star a => star_loop (run a) (length (fst st)) st
  | Group i a =>
      map (fun st' => (fst st', (i, consumed (fst st) (fst st')) :: snd st'))
        (run a st)
  end.

(** A match object. *)
Record match_ : Type := Match {
  start : nat;        (* [m.start()] *)
  whole : str;        (* [m.group(0)] *)
  caps : captures
}.

Fixpoint lookup (i : nat) (cs : captures) : option str :=
  match cs with
  | [] => None
  | (j, x) :: cs' => if Nat.eqb i j then Some x else lookup i cs'
  end.

(** [m.group(i)].  The groups of the patterns of [app.py] take part in
    every match, so that the [None] of a group left out is not modelled. *)
Definition group (m : match_) (i : nat) : str :=
  match i with
  | O => whole m
  | _ => match lookup i (caps m) with Some x => x | None => [] end
  end.

(** The match of [r] at the head of [s], which starts at index [pos]. *)
Definition match_at (r : regex) (pos : nat) (s : str) : option (match_ * str) :=
  match run r (s, []) with
  | (rest, cs) :: _ => Some (Match pos (consumed s rest) cs, rest)
  | [] => None
  end.

(** [re.search]: the match at the leftmost index that has one. *)
Fixpoint search_from (r : regex) (pos : nat) (s : str) : option match_ :=
  match match_at r pos s with
  | Some (m, _) => Some m
  | None =>
      match s with
      | [] => None
      | _ :: s' => search_from r (S pos) s'
      end
  end.

Definition search (r : regex) (s : str) : option match_ := search_from r 0 s.

(** [pattern.sub(repl, s)] with a function [repl]: the leftmost matches
    that do not overlap are replaced.  After an empty match the next
    character is copied. *)
Fixpoint sub_from (r : regex) (repl : match_ -> str) (fuel pos : nat) (s : str)
  : str :=
  match fuel with
  | O => s
  | S n =>
      match match_at r pos s with
      | Some (m, rest) =>
          match whole m, s with
          | [], [] => repl m
          | [], c :: s' => repl m ++ c :: sub_from r repl n (S pos) s'
          | _, _ => repl m ++ sub_from r repl n (pos + length (whole m)) rest
          end
      | None =>
          match s with
          | [] => []
          | c :: s' => c :: sub_from r repl n (S pos) s'
          end
      end
  end.

Definition sub (r : regex) (repl : match_ -> str) (s : str) : str :=
  sub_from r repl (S (length s)) 0 s.

End Re.

(** ** The program *)

Import Re.

(** *** [extract_text_from_pdf]

    [PyPDF2] is outside the repository.  What [PdfReader(file_stream)] and
    [page.extract_text()] do with an upload is data of the model: the reader
    raises or gives pages, and a page raises or gives its text, which may be
    [None] or empty. *)

Inductive page : Type :=
| PageText (page_text : option str)
| PageFails (message : str).

Inductive pdf : Type :=
| Pages (pages : list page)
| ReaderFails (message : str).

(** The loop over [reader.pages], with [text] as its accumulator; the left
    summand is the message of the exception caught by [except]. *)
Fixpoint extract_pages (text : str) (pages : list page) : str + str :=
  match pages with
  | [] => inr text
  | PageFails e :: _ => inl e
  | PageText None :: rest => extract_pages text rest
  | PageText (Some []) :: rest => extract_pages text rest
  | PageText (Some page_text) :: rest =>
      extract_pages (text ++ (page_text ++ [Char.LF])) rest
  end.

(** The left summand is the message of the [ValueError] raised. *)
Definition extract_text_from_pdf (file_stream : pdf) : str + str :=
  match file_stream with
  | ReaderFails e => inl (u "Error processing PDF file: " ++ e)
  | Pages pages =>
      match extract_pages [] pages with
      | inl e => inl (u "Error processing PDF file: " ++ e)
      | inr text => inr text
      end
  end.

(** *** [remove_extra_spaces_in_uppercase] *)

(** [((?:[A-Z]\s+){1,}[A-Z])] *)
Definition uppercase_run : regex :=
  Group 1
    (Seq (Plus (Seq (Chr (Range 65 90)) (Plus (Chr Space))))
         (Chr (Range 65 90))).

(** [match.group(0).replace(" ", "")] *)
Definition repl (m : match_) : str :=
  Str.replace_char Char.SPACE [] (group m 0).

Definition remove_extra_spaces_in_uppercase (s : str) : str :=
  let s := Str.replace_char Char.LF [Char.SPACE] s in
  sub uppercase_run repl s.

(** *** [parse_key_data] *)

Record key_data : Type := KeyData {
  property_name : option str;
  address : option str;
  total_rentable_square_footage : option Z
}.

(** [(280\s+RICHARDS)] with [re.IGNORECASE] *)
Definition prop_name_pattern : regex :=
  Group 1 (Seq (lit_i (u "280")) (Seq (Plus (Chr Space)) (lit_i (u "RICHARDS")))).

(** [(BROOKLYN)[,]?\s*(NEWYOR(?:CITY)?)] with [re.IGNORECASE] *)
Definition address_pattern : regex :=
  Seq (Group 1 (lit_i (u "BROOKLYN")))
    (Seq (Opt (Chr (Lit Char.COMMA)))
       (Seq (Star (Chr Space))
          (Group 2 (Seq (lit_i (u "NEWYOR")) (Opt (lit_i (u "CITY"))))))).

(** [([\d,]+)\s*(?:square\s*feet|sf)] with [re.IGNORECASE] *)
Definition sqft_pattern : regex :=
  Seq (Group 1 (Plus (Chr (Union Digit (Lit Char.COMMA)))))
    (Seq (Star (Chr Space))
       (Alt (Seq (lit_i (u "square")) (Seq (Star (Chr Space)) (lit_i (u "feet"))))
            (lit_i (u "sf")))).

(** [(\d+)\s*K] with [re.IGNORECASE] *)
Definition k_pattern : regex :=
  Seq (Group 1 (Plus (Chr Digit)))
    (Seq (Star (Chr Space)) (Chr (LitI 75%N))).

Definition parse_key_data (pdf_text : str) : key_data :=
  let cleaned_text := remove_extra_spaces_in_uppercase pdf_text in
  let prop_name_match := search prop_name_pattern cleaned_text in
  let property_name :=
    match prop_name_match with
    | Some m => Some (PyStr.title (PyStr.strip (group m 1)))
    | None => None
    end in
  let address_match := search address_pattern cleaned_text in
  let address :=
    match address_match with
    | Some m =>
        let borough := PyStr.title (group m 1) in
        let ny_variant := PyStr.upper (group m 2) in
        let ny :=
          if Str.eqb ny_variant (u "NEWYORCITY") then u "New York City"
          else if Str.eqb ny_variant (u "NEWYOR") then u "New York"
          else PyStr.title ny_variant in
        Some (borough ++ u ", " ++ ny)
    | None => None
    end in
  let sqft_match := search sqft_pattern cleaned_text in
  let sqft :=
    match sqft_match with
    | Some m =>
        let sqft_str := Str.replace_char Char.COMMA [] (group m 1) in
        PyStr.int sqft_str
    | None =>
        let k_match := search k_pattern cleaned_text in
        match k_match with
        | Some m => option_map (fun n => (n * 1000)%Z) (PyStr.int (group m 1))
        | None => None
        end
    end in
  KeyData property_name address sqft.

(** *** [parse_pdf_api] *)

(** The uploaded file of [request.files['file']]. *)
Record upload : Type := Upload {
  filename : str;
  content : pdf
}.

(** A request: [files] is the part named [file], if there is one. *)
Record request : Type := Request {
  files : option upload
}.

(** The JSON bodies the handler builds. *)
Inductive body : Type :=
| Error (error : str)
| ErrorExtracted (error : str) (extracted : key_data)
| Data (data : key_data).

Definition response : Type := (body * nat)%type.

(** [None in key_data.values()] *)
Definition none_in_values (k : key_data) : bool :=
  match property_name k, address k, total_rentable_square_footage k with
  | Some _, Some _, Some _ => false
  | _, _, _ => true
  end.

(** [jsonify] writes an [int] in decimal, and that conversion raises
    [ValueError] on an integer of more digits than the limit of [int].  The
    square footage is the only [int] of a body. *)
Definition INT_TO_STR_ERROR : str :=
  u "Exceeds the limit (4300 digits) for integer string conversion; use sys.set_int_max_str_digits() to increase the limit".

Definition int_to_str_ok (n : Z) : bool :=
  Z.ltb (Z.abs n) (10 ^ Z.of_nat PyStr.int_max_str_digits).

Definition serializes (k : key_data) : bool :=
  match total_rentable_square_footage k with
  | Some n => int_to_str_ok n
  | None => true
  end.

(** The left summand is the message of the [ValueError] raised. *)
Definition jsonify (b : body) : str + body :=
  match b with
  | Error _ => inr b
  | ErrorExtracted _ k | Data k =>
      if serializes k then inr b else inl INT_TO_STR_ERROR
  end.

(** The two tests before [try] answer 400; within [try], an exception of
    the extraction or of [jsonify] is answered by [except] with 500 and its
    message. *)
Definition parse_pdf_api (req : request) : response :=
  match files req with
  | None => (Error (u "No file part in the request."), 400)
  | Some pdf_file =>
      if Str.eqb (filename pdf_file) [] then (Error (u "No selected file."), 400)
      else
        match extract_text_from_pdf (content pdf_file) with
        | inl e => (Error e, 500)
        | inr pdf_text =>
            let key_data := parse_key_data pdf_text in
            let answer :=
              if none_in_values key_data then
                (jsonify
                   (ErrorExtracted
                      (u "Could not reliably extract all key information.")
                      key_data),
                 422)
              else (jsonify (Data key_data), 200) in
            match answer with
            | (inr b, status) => (b, status)
            | (inl e, _) => (Error e, 500)
            end
        end
  end.

(** ** Definitions of the specification and of the proofs *)

(** *** Repetition of one character set *)

(** What a greedy [cs*] leaves of [s]: the longest run first. *)
Fixpoint splits (p : N -> bool) (s : str) : list str :=
  match s with
  | c :: s' => if p c then splits p s' ++ [s] else [s]
  | [] => [[]]
  end.

Fixpoint drop_while (p : N -> bool) (s : str) : str :=
  match s with
  | c :: s' => if p c then drop_while p s' else s
  | [] => []
  end.

Fixpoint take_while (p : N -> bool) (s : str) : str :=
  match s with
  | c :: s' => if p c then c :: take_while p s' else []
  | [] => []
  end.

(** *** Words under [re.IGNORECASE] *)

(** [x] is the word [p] in some letter case: every character of [x] is
    accepted by the literal of the pattern at its place. *)
Definition ci_word (p x : str) : Prop :=
  Forall2 (fun pc xc => Char.matches_ignorecase pc xc = true) p x.

(** [s] starts with the word [p] in some letter case. *)
Fixpoint ci_prefix (p s : str) : bool :=
  match p, s with
  | [], _ => true
  | pc :: p', c :: s' => Char.matches_ignorecase pc c && ci_prefix p' s'
  | _ :: _, [] => false
  end.

Definition spaces (w : str) : Prop := Forall (fun c => Char.is_space c = true) w.

Definition is_letter (c : N) : bool :=
  Char.is_upper_az c || Char.is_lower_az c.

(** The characters that a case-insensitive ASCII letter accepts. *)
Definition word_char (c : N) : bool :=
  is_letter c || N.eqb c Char.CAPITAL_I_DOT || N.eqb c Char.DOTLESS_I
  || N.eqb c Char.LONG_S || N.eqb c Char.KELVIN.

(** No white space in the ten characters from [z]. *)
Definition space_free (z : N) : bool :=
  forallb (fun d => negb (Char.is_space (z + d)))
    [0; 1; 2; 3; 4; 5; 6; 7; 8; 9]%N.

(** *** The matches of the four patterns of [parse_key_data]

    What each pattern matches at the head of a text, read off the text
    directly; the lemmas [match_at_...] show that the matcher finds
    exactly this. *)

(** [[\d,]] *)
Definition digit_or_comma (c : N) : bool :=
  Char.is_digit c || N.eqb c Char.COMMA.

(** The captured text and the rest. *)
Definition prop_name_at (s : str) : option (str * str) :=
  if ci_prefix (u "280") s then
    match skipn 3 s with
    | c :: s2 =>
        if Char.is_space c then
          let s3 := drop_while Char.is_space s2 in
          if ci_prefix (u "RICHARDS") s3
          then Some (firstn 3 s ++ (c :: take_while Char.is_space s2)
                       ++ firstn 8 s3,
                     skipn 8 s3)
          else None
        else None
    | [] => None
    end
  else None.

(** The city after the borough and the optional comma: group 2 and the
    rest. *)
Definition city_at (s2 : str) : option (str * str) :=
  let s3 := drop_while Char.is_space s2 in
  if ci_prefix (u "NEWYOR") s3 then
    let s4 := skipn 6 s3 in
    if ci_prefix (u "CITY") s4 then Some (firstn 10 s3, skipn 4 s4)
    else Some (firstn 6 s3, s4)
  else None.

(** [\s*(NEWYOR(?:CITY)?)], the end of the address pattern. *)
Definition city_pattern : regex :=
  Seq (Star (Chr Space))
    (Group 2 (Seq (lit_i (u "NEWYOR")) (Opt (lit_i (u "CITY"))))).

(** Group 1, group 2 and the rest. *)
Definition address_at (s : str) : option (str * str * str) :=
  if ci_prefix (u "BROOKLYN") s then
    let s1 := skipn 8 s in
    let with_comma :=
      match s1 with
      | c :: s1' => if N.eqb c Char.COMMA then city_at s1' else None
      | [] => None
      end in
    match with_comma with
    | Some (c, rest) => Some (firstn 8 s, c, rest)
    | None =>
        match city_at s1 with
        | Some (c, rest) => Some (firstn 8 s, c, rest)
        | None => None
        end
    end
  else None.

(** The unit after the number: the rest after [square\s*feet] or [sf]. *)
Definition unit_at (s1 : str) : option str :=
  let s2 := drop_while Char.is_space s1 in
  let s3 := drop_while Char.is_space (skipn 6 s2) in
  if ci_prefix (u "square") s2 && ci_prefix (u "feet") s3 then Some (skipn 4 s3)
  else if ci_prefix (u "sf") s2 then Some (skipn 2 s2)
  else None.

(** [\s*(?:square\s*feet|sf)], the end of the square-feet pattern. *)
Definition unit_pattern : regex :=
  Seq (Star (Chr Space))
    (Alt (Seq (lit_i (u "square")) (Seq (Star (Chr Space)) (lit_i (u "feet"))))
         (lit_i (u "sf"))).

(** [\s*K], the end of the K pattern. *)
Definition k_suffix : regex := Seq (Star (Chr Space)) (Chr (LitI 75%N)).

(** Group 1 and the rest. *)
Definition sqft_at (s : str) : option (str * str) :=
  match s with
  | c :: s' =>
      if digit_or_comma c then
        match unit_at (drop_while digit_or_comma s') with
        | Some rest => Some (c :: take_while digit_or_comma s', rest)
        | None => None
        end
      else None
  | [] => None
  end.

Definition k_at (s : str) : option (str * str) :=
  match s with
  | c :: s' =>
      if Char.is_digit c then
        match drop_while Char.is_space (drop_while Char.is_digit s') with
        | k :: rest =>
            if Char.matches_ignorecase 75 k
            then Some (c :: take_while Char.is_digit s', rest) else None
        | [] => None
        end
      else None
  | [] => None
  end.

(** *** The Whitespace Normalizer, in the words of the specification *)

(** The space character, which is what [repl] deletes. *)
Definition is_SPACE (c : N) : bool := N.eqb c Char.SPACE.

Module Spec.

(** [[A-Z]\s+], one letter of a spaced-out run with the white space after
    it. *)
Definition letter_gap : regex := Seq (Chr (Range 65 90)) (Plus (Chr Space)).

(** The ends of the runs that start before [st]: [(?:[A-Z]\s+)*[A-Z]] read
    from [st] with [fuel] repetitions at most. *)
Definition run_ends (fuel : nat) (st : state) : list state :=
  flat_map (run (Chr (Range 65 90))) (star_loop (run letter_gap) fuel st).

(** After an upper-case letter and the white space [buf] read since:
    the rest of the maximal run (groups of white space and one upper-case
    letter), and the text after the run. *)
Fixpoint run_split (buf s : str) : str * str :=
  match s with
  | [] => ([], buf)
  | c :: s' =>
      if Char.is_space c then run_split (buf ++ [c]) s'
      else if Char.is_upper_az c then
        match buf with
        | [] => ([], s)
        | _ => let (x, r) := run_split [] s' in (buf ++ c :: x, r)
        end
      else ([], buf ++ s)
  end.

(** The maximal run of two or more upper-case letters, each separated from
    the next by white space, at the head of [s]. *)
Definition spaced_run (s : str) : option (str * str) :=
  match s with
  | c :: s' =>
      if Char.is_upper_az c then
        match run_split [] s' with
        | ([], _) => None
        | (x, r) => Some (c :: x, r)
        end
      else None
  | [] => None
  end.

(** Step 2 of the algorithm: the characters [del] are deleted within every
    maximal run, every other character is kept. *)
Fixpoint collapse_from (del : N -> bool) (fuel : nat) (s : str) : str :=
  match fuel with
  | O => s
  | S n =>
      match spaced_run s with
      | Some (r, rest) =>
          filter (fun c => negb (del c)) r ++ collapse_from del n rest
      | None =>
          match s with
          | [] => []
          | c :: s' => c :: collapse_from del n s'
          end
      end
  end.

Definition collapse (del : N -> bool) (s : str) : str :=
  collapse_from del (S (length s)) s.

(** Step 1: every newline becomes one space. *)
Definition newlines_to_spaces (s : str) : str :=
  map (fun c => if N.eqb c Char.LF then Char.SPACE else c) s.

(** The normalizer that deletes the characters [del] in the runs. *)
Definition normalize (del : N -> bool) (s : str) : str :=
  collapse del (newlines_to_spaces s).

(** The same transformation as one pass with a state: [None] away from an
    upper-case letter, [Some buf] after an upper-case letter and the white
    space [buf], which is not yet written. *)
Definition pending (st : option str) : str :=
  match st with Some buf => buf | None => [] end.

Fixpoint scan (del : N -> bool) (st : option str) (s : str) : str :=
  match s with
  | [] => pending st
  | c :: s' =>
      if Char.is_space c then
        match st with
        | Some buf => scan del (Some (buf ++ [c])) s'
        | None => c :: scan del None s'
        end
      else if Char.is_upper_az c then
        filter (fun c => negb (del c)) (pending st) ++ c :: scan del (Some []) s'
      else pending st ++ c :: scan del None s'
  end.

End Spec.

(** *** The Text Extractor, in the words of the specification *)

(** The text of a page; a page with no text gives the empty text. *)
Definition text_of (t : option str) : str :=
  match t with Some x => x | None => [] end.

(** The page texts joined by a line break. *)
Definition joined_pages (ts : list (option str)) : str :=
  Str.join [Char.LF] (map text_of ts).

(** What a page adds to the text: its text and a line break, or nothing. *)
Definition segment (t : option str) : str :=
  match text_of t with
  | [] => []
  | x => x ++ [Char.LF]
  end.

(** *** The fields *)

Definition BROOKLYN_NEW_YORK_CITY : str := u "Brooklyn, New York City".
Definition BROOKLYN_NEW_YORK : str := u "Brooklyn, New York".

Definition all_fields (k : key_data) : Prop :=
  property_name k <> None /\ address k <> None
  /\ total_rentable_square_footage k <> None.

Definition some_field_null (k : key_data) : Prop :=
  property_name k = None \/ address k = None
  \/ total_rentable_square_footage k = None.

(** The property name occurs in [t] after [pre]: the digits 280, the white
    space [w], which is not empty, and the word [r], which is RICHARDS in
    some letter case. *)
Definition prop_name_occurs (t pre w r post : str) : Prop :=
  t = pre ++ u "280" ++ w ++ r ++ post
  /\ w <> [] /\ spaces w /\ ci_word (u "RICHARDS") r.

Definition is_ascii (c : N) : Prop := (c < 128)%N.

(** *** Definitions for the further properties *)

(** The space and the newline, the two characters the normalizer may
    change. *)
Definition is_blank (c : N) : bool := N.eqb c Char.SPACE || N.eqb c Char.LF.

Definition not_blank (c : N) : bool := negb (is_blank c).

(** The letters of a word written with [k] spaces between two letters. *)
Definition spaced (k : nat) (letters : str) : str :=
  match letters with
  | [] => []
  | l :: ls => l :: flat_map (fun c => repeat Char.SPACE k ++ [c]) ls
  end.

Definition page_raises (p : page) : bool :=
  match p with PageFails _ => true | PageText _ => false end.

(** The reader or one of the pages raises. *)
Definition pdf_raises (f : pdf) : bool :=
  match f with
  | ReaderFails _ => true
  | Pages ps => existsb page_raises ps
  end.

(** The truth value of a page text. *)
Definition has_text (t : option str) : bool :=
  match text_of t with [] => false | _ => true end.

Definition ERROR_PREFIX : str := u "Error processing PDF file: ".

(** The address occurs in [t] after [pre]: BROOKLYN, an optional comma,
    the white space [w] and NEWYOR, the letters in some case. *)
Definition address_occurs (t pre b comma w c post : str) : Prop :=
  t = pre ++ b ++ comma ++ w ++ c ++ post
  /\ ci_word (u "BROOKLYN") b
  /\ (comma = [] \/ comma = [Char.COMMA])
  /\ spaces w /\ ci_word (u "NEWYOR") c.

(** An upload of pages that do not raise. *)
Definition upload_of (name : str) (ts : list (option str)) : request :=
  Request (Some (Upload name (Pages (map PageText ts)))).

(** *** Definitions for the handler *)

(** An [s] followed by a [q] or an [f], in some letter case, stands
    somewhere in the text: the start of ["square"] or of ["sf"]. *)
Fixpoint unit_start (s : str) : bool :=
  match s with
  | c :: s' =>
      match s' with
      | c' :: _ =>
          Char.matches_ignorecase 115 c
          && (Char.matches_ignorecase 113 c' || Char.matches_ignorecase 102 c')
      | [] => false
      end
      || unit_start s'
  | [] => false
  end.

(** A number of 4298 digits, and a lease that gives it in thousands. *)
Definition long_number : str := repeat 57%N 4298.

Definition long_number_text : str :=
  u "BROOKLYN, NEWYORCITY " ++ long_number ++ u "K 280 RICHARDS".

Definition COULD_NOT_EXTRACT : str :=
  u "Could not reliably extract all key information.".

(** * Properties *)

(** ** Characters *)

Ltac char_cases :=
  unfold Char.is_space, Char.is_upper_az, Char.is_lower_az, Char.in_range,
    Char.SPACE, Char.LF, Char.COMMA in *;
  repeat rewrite ?andb_true_iff, ?orb_true_iff, ?andb_false_iff,
    ?orb_false_iff, ?negb_true_iff, ?negb_false_iff,
    ?N.leb_le, ?N.leb_gt, ?N.eqb_eq, ?N.eqb_neq in *;
  try lia.

Lemma upper_not_space c :
  Char.is_upper_az c = true -> Char.is_space c = false.
Proof. intros H. char_cases. Qed.

Lemma space_not_upper c :
  Char.is_space c = true -> Char.is_upper_az c = false.
Proof.
  intros H. destruct (Char.is_upper_az c) eqn:E; [|reflexivity].
  apply upper_not_space in E. congruence.
Qed.

(** ** The matcher *)

Section Matcher.

Lemma splits_length p s r : In r (splits p s) -> length r <= length s.
Proof.
  revert r. induction s as [|c s IH]; simpl; intros r H.
  - destruct H as [<-|[]]. simpl. lia.
  - destruct (p c).
    + apply in_app_or in H. destruct H as [H|[<-|[]]].
      * apply IH in H. lia.
      * simpl. lia.
    + destruct H as [<-|[]]. simpl. lia.
Qed.

Lemma take_drop_while p s : take_while p s ++ drop_while p s = s.
Proof.
  induction s as [|c s IH]; simpl; [reflexivity|].
  destruct (p c); simpl; congruence.
Qed.

Lemma take_while_all p s : Forall (fun c => p c = true) (take_while p s).
Proof.
  induction s as [|c s IH]; simpl; [constructor|].
  destruct (p c) eqn:E; constructor; assumption.
Qed.

Lemma drop_while_head p s c s' :
  drop_while p s = c :: s' -> p c = false.
Proof.
  induction s as [|d s IH]; simpl; [discriminate|].
  destruct (p d) eqn:E; [assumption|]. intros [= -> ->]. assumption.
Qed.

Lemma drop_while_length p s : length (drop_while p s) <= length s.
Proof.
  induction s as [|c s IH]; simpl; [lia|]. destruct (p c); simpl; lia.
Qed.

Lemma drop_while_app p w s :
  Forall (fun c => p c = true) w -> drop_while p (w ++ s) = drop_while p s.
Proof.
  induction 1 as [|c w Hc _ IH]; simpl; [reflexivity|]. now rewrite Hc.
Qed.

Lemma drop_while_stop p s :
  match s with c :: _ => p c = false | [] => True end -> drop_while p s = s.
Proof. destruct s as [|c s]; simpl; [reflexivity|]. now intros ->. Qed.

(** A greedy [cs*]: the states left, the longest run first. *)
Lemma star_chr cs n s g :
  length s <= n ->
  star_loop (run (Chr cs)) n (s, g) = map (fun r => (r, g)) (splits (mem cs) s).
Proof.
  revert s. induction n as [|n IH]; intros s Hn.
  - destruct s; [reflexivity|simpl in Hn; lia].
  - destruct s as [|c s]; [reflexivity|].
    simpl in Hn. cbn [star_loop run fst snd splits].
    destruct (mem cs c); cbn [flat_map app fst snd].
    + replace (length s <? length (c :: s)) with true
        by (symmetry; apply Nat.ltb_lt; simpl; lia).
      rewrite IH by lia. rewrite app_nil_r, map_app. reflexivity.
    + reflexivity.
Qed.

Lemma run_star_chr cs s g :
  run (Star (Chr cs)) (s, g) = map (fun r => (r, g)) (splits (mem cs) s).
Proof. cbn [run fst]. apply star_chr. lia. Qed.

(** [cs+] *)
Lemma run_plus_chr cs s g :
  run (Plus (Chr cs)) (s, g) =
  match s with
  | c :: s' =>
      if mem cs c then map (fun r => (r, g)) (splits (mem cs) s') else []
  | [] => []
  end.
Proof.
  unfold Plus. cbn [run fst snd]. destruct s as [|c s]; [reflexivity|].
  destruct (mem cs c); [|reflexivity].
  cbn [flat_map fst]. rewrite app_nil_r. apply star_chr. simpl. lia.
Qed.

(** When what follows a greedy [cs*] cannot start with a character of [cs],
    the repetition never gives back a character. *)
Lemma flat_map_splits (A : Type) (f : state -> list A) p s g :
  (forall c s', p c = true -> f (c :: s', g) = []) ->
  flat_map f (map (fun r => (r, g)) (splits p s)) = f (drop_while p s, g).
Proof.
  intros Hf. induction s as [|c s IH]; cbn [splits drop_while].
  - cbn [map flat_map]. apply app_nil_r.
  - destruct (p c) eqn:E.
    + rewrite map_app, flat_map_app. rewrite IH. cbn [map flat_map].
      rewrite (Hf c s E). now rewrite !app_nil_r.
    + cbn [map flat_map]. apply app_nil_r.
Qed.

Lemma flat_map_bind (A B C : Type) (f : B -> list C) (h : A -> list B) l :
  flat_map f (flat_map h l) = flat_map (fun x => flat_map f (h x)) l.
Proof.
  induction l as [|x l IH]; simpl; [reflexivity|].
  now rewrite flat_map_app, IH.
Qed.

Lemma flat_map_ext_in (A B : Type) (f h : A -> list B) l :
  (forall x, In x l -> f x = h x) -> flat_map f l = flat_map h l.
Proof.
  induction l as [|x l IH]; simpl; intros H; [reflexivity|].
  rewrite H by now left. rewrite IH; [reflexivity|].
  intros y Hy. apply H. now right.
Qed.

End Matcher.

(** ** The pattern of the Whitespace Normalizer *)

Section UppercaseRun.

Import Spec.

Local Abbreviation upper := Char.is_upper_az.
Local Abbreviation space := Char.is_space.

Lemma run_upper s g :
  run (Chr (Range 65 90)) (s, g) =
  match s with
  | c :: s' => if upper c then [(s', g)] else []
  | [] => []
  end.
Proof. reflexivity. Qed.

Lemma run_letter_gap s g :
  run letter_gap (s, g) =
  match s with
  | l :: c :: s2 =>
      if upper l && space c
      then map (fun r => (r, g)) (splits space s2) else []
  | _ => []
  end.
Proof.
  unfold letter_gap. cbn [run fst snd].
  destruct s as [|l s1]; [reflexivity|].
  change (mem (Range 65 90) l) with (upper l).
  destruct (upper l); cbn [flat_map andb].
  - rewrite app_nil_r.
    change (flat_map (run (Star (Chr Space))) (run (Chr Space) (s1, g)))
      with (run (Plus (Chr Space)) (s1, g)).
    rewrite run_plus_chr. destruct s1; reflexivity.
  - destruct s1; reflexivity.
Qed.

Lemma run_ends_not_upper n s g :
  match s with c :: _ => upper c = false | [] => True end ->
  run_ends n (s, g) = [].
Proof.
  intros H. unfold run_ends.
  assert (Hg : run letter_gap (s, g) = []).
  { rewrite run_letter_gap. destruct s as [|l [|c s2]]; try reflexivity.
    now rewrite H. }
  assert (Hu : run (Chr (Range 65 90)) (s, g) = []).
  { rewrite run_upper. destruct s; [reflexivity|]. now rewrite H. }
  destruct n; cbn [star_loop]; [|rewrite Hg]; cbn [flat_map app];
    rewrite Hu; reflexivity.
Qed.

Lemma run_ends_last n l s1 g :
  upper l = true ->
  match s1 with c :: _ => space c = false | [] => True end ->
  run_ends n (l :: s1, g) = [(s1, g)].
Proof.
  intros Hl H. unfold run_ends.
  assert (Hg : run letter_gap (l :: s1, g) = []).
  { rewrite run_letter_gap. destruct s1 as [|c s2]; [reflexivity|].
    now rewrite H, andb_false_r. }
  assert (Hu : run (Chr (Range 65 90)) (l :: s1, g) = [(s1, g)]).
  { rewrite run_upper. now rewrite Hl. }
  destruct n; cbn [star_loop]; [|rewrite Hg]; cbn [flat_map app];
    rewrite Hu; reflexivity.
Qed.

Lemma run_ends_gap n l c s2 g :
  upper l = true -> space c = true -> length s2 <= n ->
  run_ends (S n) (l :: c :: s2, g) =
  run_ends n (drop_while space s2, g) ++ [(c :: s2, g)].
Proof.
  intros Hl Hc Hn. unfold run_ends. cbn [star_loop].
  rewrite flat_map_app. cbn [flat_map]. rewrite app_nil_r.
  rewrite (run_upper (l :: c :: s2)), Hl. f_equal.
  rewrite run_letter_gap, Hl, Hc. cbn [andb fst].
  rewrite flat_map_bind.
  rewrite <- (flat_map_splits _
                (fun st => flat_map (run (Chr (Range 65 90)))
                             (star_loop (run letter_gap) n st)) space s2 g).
  - apply flat_map_ext_in. intros st Hst.
    apply in_map_iff in Hst. destruct Hst as [r [<- Hr]]. cbn [fst].
    apply splits_length in Hr.
    replace (length r <? length (l :: c :: s2)) with true
      by (symmetry; apply Nat.ltb_lt; simpl; lia).
    reflexivity.
  - intros d s' Hd. apply (run_ends_not_upper n (d :: s') g).
    now apply space_not_upper.
Qed.

Lemma run_split_space buf s :
  run_split buf s =
  run_split (buf ++ take_while space s) (drop_while space s).
Proof.
  revert buf. induction s as [|c s IH]; intros buf;
    cbn [take_while drop_while].
  - now rewrite app_nil_r.
  - destruct (space c) eqn:E.
    + cbn [run_split]. fold space. rewrite E, IH.
      now rewrite <- app_assoc.
    + now rewrite app_nil_r.
Qed.

Lemma run_split_app buf s : 
  fst (run_split buf s) ++ snd (run_split buf s) = buf ++ s.
Proof.
  revert buf. induction s as [|c s IH]; intros buf; cbn [run_split].
  - cbn [fst snd app]. now rewrite app_nil_r.
  - destruct (Char.is_space c).
    + rewrite IH. now rewrite <- app_assoc.
    + destruct (Char.is_upper_az c); [|reflexivity].
      destruct buf as [|b buf]; [reflexivity|].
      specialize (IH []). destruct (run_split [] s) as [x r].
      cbn [fst snd] in *. rewrite <- app_assoc. cbn [app]. now rewrite IH.
Qed.

(** The first end that the matcher finds is the end of the maximal run. *)
Lemma run_ends_head n l s1 g :
  upper l = true -> length s1 <= n ->
  hd_error (run_ends (S n) (l :: s1, g)) = Some (snd (run_split [] s1), g).
Proof.
  revert l s1. induction n as [|n IH]; intros l s1 Hl Hn.
  - destruct s1; [|simpl in Hn; lia].
    rewrite run_ends_last by (auto; exact I). reflexivity.
  - destruct s1 as [|c s2].
    { rewrite run_ends_last by (auto; exact I). reflexivity. }
    destruct (space c) eqn:Hc.
    + simpl in Hn. rewrite run_ends_gap by (auto; lia).
      rewrite (run_split_space [] (c :: s2)).
      cbn [take_while drop_while]. fold space. rewrite Hc. cbn [app].
      pose proof (take_drop_while space s2) as Htd.
      pose proof (drop_while_length space s2) as Hlen.
      destruct (drop_while space s2) as [|d d1] eqn:Ed.
      * rewrite run_ends_not_upper by exact I. cbn [app hd_error run_split].
        rewrite app_nil_r in Htd. now rewrite Htd.
      * pose proof (drop_while_head _ _ _ _ Ed) as Hd.
        destruct (upper d) eqn:Hu.
        -- cbn [length] in Hlen.
           specialize (IH d d1 Hu ltac:(lia)).
           destruct (run_ends (S n) (d :: d1, g)) as [|e es]; [discriminate|].
           cbn [hd_error app] in *. rewrite IH. f_equal. f_equal.
           cbn [run_split]. fold space upper. rewrite Hd, Hu.
           destruct (run_split [] d1); reflexivity.
        -- rewrite run_ends_not_upper by exact Hu.
           cbn [app hd_error run_split]. fold space upper. rewrite Hd, Hu.
           cbn [snd app]. now rewrite Htd.
    + rewrite run_ends_last by auto. cbn [hd_error run_split].
      fold space upper. rewrite Hc.
      destruct (upper c); reflexivity.
Qed.

Lemma consumed_app (a r : str) : consumed (a ++ r) r = a.
Proof.
  unfold consumed. rewrite length_app.
  replace (length a + length r - length r) with (length a) by lia.
  rewrite firstn_app, firstn_all, Nat.sub_diag. cbn [firstn].
  apply app_nil_r.
Qed.

(** The match of the pattern at the head of a text is the maximal run of
    the specification. *)
Lemma match_at_uppercase_run pos s :
  match_at uppercase_run pos s =
  match spaced_run s with
  | Some (x, r) => Some (Match pos x [(1, x)], r)
  | None => None
  end.
Proof.
  unfold match_at, uppercase_run, Plus.
  change (Seq (Chr (Range 65 90)) (Seq (Chr Space) (Star (Chr Space))))
    with letter_gap.
  cbn [run]. rewrite flat_map_bind.
  change (fun x : state =>
            flat_map (run (Chr (Range 65 90)))
              (star_loop (run letter_gap) (length (fst x)) x))
    with (fun x : state => run_ends (length (fst x)) x).
  rewrite run_letter_gap. unfold spaced_run. fold upper.
  destruct s as [|l [|c s2]]; [reflexivity| |].
  { destruct (upper l); reflexivity. }
  destruct (upper l) eqn:Hl; [|reflexivity].
  cbn [andb]. rewrite (run_split_space [] (c :: s2)).
  cbn [take_while drop_while]. fold space.
  destruct (space c) eqn:Hc.
  - rewrite (flat_map_splits _ (fun x : state => run_ends (length (fst x)) x)).
    2:{ intros d s' Hd. apply run_ends_not_upper. now apply space_not_upper. }
    cbn [fst app].
    pose proof (take_drop_while space s2) as Htd.
    destruct (drop_while space s2) as [|d d1] eqn:Ed.
    + rewrite run_ends_not_upper by exact I. reflexivity.
    + pose proof (drop_while_head _ _ _ _ Ed) as Hd.
      destruct (upper d) eqn:Hu.
      * pose proof (@run_ends_head (length d1) d d1 [] Hu (le_n _)) as Hh.
        cbn [length]. 
        destruct (run_ends (S (length d1)) (d :: d1, [])) as [|[e ge] es];
          [discriminate|].
        cbn [hd_error] in Hh. injection Hh as He Hg. subst e ge.
        cbn [map fst snd run_split]. fold space upper. rewrite Hd, Hu.
        pose proof (run_split_app [] d1) as Happ.
        destruct (run_split [] d1) as [x r]. cbn [fst snd app] in *.
        assert (Hs : l :: c :: s2 = (l :: c :: take_while space s2 ++ d :: x) ++ r).
        { cbn [app]. rewrite <- app_assoc. cbn [app]. now rewrite Happ, Htd. }
        rewrite Hs, consumed_app. reflexivity.
      * rewrite run_ends_not_upper by exact Hu.
        cbn [map run_split]. fold space upper. now rewrite Hd, Hu.
  - cbn [app run_split]. fold space upper. rewrite Hc.
    destruct (upper c); reflexivity.
Qed.

End UppercaseRun.

(** ** The Whitespace Normalizer *)

Lemma replace_char_delete c s :
  Str.replace_char c [] s = filter (fun x => negb (N.eqb x c)) s.
Proof.
  unfold Str.replace_char. induction s as [|x s IH]; simpl; [reflexivity|].
  destruct (N.eqb x c); simpl; now rewrite IH.
Qed.

Lemma replace_char_map old new s :
  Str.replace_char old [new] s =
  map (fun c => if N.eqb c old then new else c) s.
Proof.
  unfold Str.replace_char. induction s as [|x s IH]; simpl; [reflexivity|].
  destruct (N.eqb x old); simpl; now rewrite IH.
Qed.

Lemma spaced_run_cons s x r :
  Spec.spaced_run s = Some (x, r) -> x <> [] /\ s = x ++ r.
Proof.
  unfold Spec.spaced_run. destruct s as [|c s]; [discriminate|].
  destruct (Char.is_upper_az c); [|discriminate].
  pose proof (run_split_app [] s) as H.
  destruct (Spec.run_split [] s) as [[|y ys] r']; [discriminate|].
  intros [= <- <-]. cbn [fst snd app] in H. split; [discriminate|].
  cbn [app]. now rewrite H.
Qed.

Lemma sub_from_collapse fuel pos s :
  sub_from uppercase_run repl fuel pos s = Spec.collapse_from is_SPACE fuel s.
Proof.
  revert pos s. induction fuel as [|n IH]; intros pos s; [reflexivity|].
  cbn [sub_from Spec.collapse_from]. rewrite match_at_uppercase_run.
  destruct (Spec.spaced_run s) as [[x r]|] eqn:E.
  - apply spaced_run_cons in E. destruct E as [Hx _].
    cbn [whole]. destruct x as [|c x]; [congruence|].
    unfold repl at 1. cbn [group whole]. rewrite replace_char_delete, IH.
    reflexivity.
  - destruct s as [|c s]; [reflexivity|]. now rewrite IH.
Qed.

(** The normalizer of the source is the normalizer of the specification
    that deletes the space characters of the runs. *)
Lemma normalizer_spec s :
  remove_extra_spaces_in_uppercase s = Spec.normalize is_SPACE s.
Proof.
  unfold remove_extra_spaces_in_uppercase, Spec.normalize, Spec.collapse, sub.
  rewrite sub_from_collapse, replace_char_map. reflexivity.
Qed.

Section Scan.

Import Spec.

Variable del : N -> bool.
Hypothesis del_space : forall c, del c = true -> Char.is_space c = true.

Local Abbreviation upper := Char.is_upper_az.
Local Abbreviation space := Char.is_space.
Local Abbreviation keep := (filter (fun c => negb (del c))).

Lemma keep_spaces w : spaces w -> spaces (keep w).
Proof.
  induction 1 as [|c w Hc _ IH]; simpl; [constructor|].
  destruct (del c); simpl; [assumption|]. now constructor.
Qed.

Lemma keep_keep w : keep (keep w) = keep w.
Proof.
  induction w as [|c w IH]; simpl; [reflexivity|].
  destruct (del c) eqn:E; simpl; [assumption|]. now rewrite E, IH.
Qed.

Lemma keep_upper c : upper c = true -> del c = false.
Proof.
  intros H. destruct (del c) eqn:E; [|reflexivity].
  apply del_space in E. apply upper_not_space in H. congruence.
Qed.

Lemma scan_some_spaces w b s :
  spaces w -> scan del (Some b) (w ++ s) = scan del (Some (b ++ w)) s.
Proof.
  intros H. revert b. induction H as [|c w Hc _ IH]; intros b.
  - now rewrite app_nil_r.
  - cbn [app scan]. rewrite Hc, IH, <- app_assoc. reflexivity.
Qed.

Lemma scan_none_spaces w s :
  spaces w -> scan del None (w ++ s) = w ++ scan del None s.
Proof.
  induction 1 as [|c w Hc _ IH]; [reflexivity|].
  cbn [app scan]. now rewrite Hc, IH.
Qed.

(** After an upper-case letter the pass writes the rest of the maximal run
    and goes on as it does away from a letter. *)
Lemma scan_run_split s : forall buf,
  spaces buf ->
  scan del (Some buf) s =
  keep (fst (run_split buf s)) ++ scan del None (snd (run_split buf s)).
Proof.
  induction s as [|c s IH]; intros buf Hbuf; cbn [scan run_split pending].
  - cbn [fst snd filter app].
    rewrite <- (app_nil_r buf) at 2. rewrite scan_none_spaces by assumption.
    cbn [scan pending]. now rewrite app_nil_r.
  - destruct (space c) eqn:Hc.
    + apply IH. apply Forall_app. split; [assumption|]. now constructor.
    + destruct (upper c) eqn:Hu.
      * destruct buf as [|b buf].
        -- cbn [fst snd filter app scan pending]. now rewrite Hc, Hu.
        -- specialize (IH [] (Forall_nil _)).
           destruct (run_split [] s) as [x r]. cbn [fst snd] in *.
           rewrite filter_app. cbn [filter].
           rewrite (keep_upper c Hu). cbn [negb].
           rewrite IH, <- app_assoc. reflexivity.
      * cbn [fst snd filter app].
        rewrite scan_none_spaces by assumption.
        cbn [scan pending]. rewrite Hc, Hu. reflexivity.
Qed.

Lemma collapse_from_scan fuel : forall s,
  length s < fuel -> collapse_from del fuel s = scan del None s.
Proof.
  induction fuel as [|n IH]; intros s Hn; [lia|].
  cbn [collapse_from]. unfold spaced_run.
  destruct s as [|c s]; [reflexivity|]. cbn [length] in Hn.
  cbn [scan pending filter app].
  destruct (upper c) eqn:Hu.
  - rewrite (upper_not_space c Hu).
    rewrite (scan_run_split s [] (Forall_nil _)).
    pose proof (run_split_app [] s) as Happ.
    destruct (run_split [] s) as [[|y ys] r]; cbn [fst snd app] in *.
    + subst r. now rewrite IH by lia.
    + assert (length r <= length s).
      { rewrite <- Happ. cbn [length]. rewrite length_app. lia. }
      cbn [filter]. rewrite (keep_upper c Hu). cbn [negb app].
      now rewrite IH by lia.
  - rewrite IH by lia. destruct (space c); reflexivity.
Qed.

Lemma collapse_scan s : collapse del s = scan del None s.
Proof. apply collapse_from_scan. lia. Qed.

(** A second pass changes nothing. *)
Lemma scan_scan s :
  (forall b, spaces b ->
     scan del (Some []) (scan del (Some b) s) = scan del (Some b) s)
  /\ scan del None (scan del None s) = scan del None s.
Proof.
  induction s as [|c s [IHs IHn]]; split.
  - intros b Hb. cbn [scan pending].
    rewrite <- (app_nil_r b) at 1. rewrite scan_some_spaces by assumption.
    reflexivity.
  - reflexivity.
  - intros b Hb. cbn [scan pending].
    destruct (space c) eqn:Hc.
    + apply IHs. apply Forall_app. split; [assumption|]. now constructor.
    + destruct (upper c) eqn:Hu.
      * rewrite scan_some_spaces by (now apply keep_spaces).
        cbn [app scan pending]. rewrite Hc, Hu, keep_keep.
        now rewrite (IHs [] (Forall_nil _)).
      * rewrite scan_some_spaces by assumption.
        cbn [app scan pending]. now rewrite Hc, Hu, IHn.
  - cbn [scan pending].
    destruct (space c) eqn:Hc.
    + cbn [scan]. now rewrite Hc, IHn.
    + destruct (upper c) eqn:Hu; cbn [filter app scan pending];
        rewrite Hc, Hu; cbn [filter app].
      * now rewrite (IHs [] (Forall_nil _)).
      * now rewrite IHn.
Qed.

(** The pass writes characters of its input only. *)
Lemma scan_in x s : forall st, In x (scan del st s) -> In x (pending st ++ s).
Proof.
  induction s as [|c s IH]; intros st; cbn [scan].
  - now rewrite app_nil_r.
  - destruct (space c).
    + destruct st as [b|]; cbn [pending app].
      * intros H. apply IH in H. cbn [pending] in H.
        now rewrite <- app_assoc in H.
      * intros [->|H]; [now left|]. right. now apply IH in H.
    + destruct (upper c).
      * intros H. apply in_app_or in H. apply in_or_app.
        destruct H as [H|H].
        -- left. apply filter_In in H. tauto.
        -- right. destruct H as [->|H]; [now left|]. right.
           now apply IH in H.
      * intros H. apply in_app_or in H. apply in_or_app.
        destruct H as [H|H]; [now left|]. right.
        destruct H as [->|H]; [now left|]. right. now apply IH in H.
Qed.

(** A character that is neither white space nor an upper-case letter
    separates what the pass does before it from what it does after it. *)
Lemma scan_barrier c y x : forall st,
  space c = false -> upper c = false ->
  scan del st (x ++ c :: y) = scan del st x ++ c :: scan del None y.
Proof.
  intros st Hc Hu. revert st.
  induction x as [|d x IH]; intros st; cbn [app scan].
  - now rewrite Hc, Hu.
  - destruct (space d).
    + destruct st; [apply IH|]. cbn [app]. now rewrite IH.
    + destruct (upper d); rewrite IH, <- app_assoc; reflexivity.
Qed.

End Scan.

Lemma is_SPACE_space c : is_SPACE c = true -> Char.is_space c = true.
Proof. unfold is_SPACE. intros H. apply N.eqb_eq in H. now subst. Qed.

(** The normalizer as one pass. *)
Lemma normalizer_scan s :
  remove_extra_spaces_in_uppercase s =
  Spec.scan is_SPACE None (Spec.newlines_to_spaces s).
Proof.
  rewrite normalizer_spec. unfold Spec.normalize.
  apply collapse_scan. exact is_SPACE_space.
Qed.

Lemma newlines_to_spaces_id s :
  ~ In Char.LF s -> Spec.newlines_to_spaces s = s.
Proof.
  unfold Spec.newlines_to_spaces.
  induction s as [|c s IH]; simpl; intros H; [reflexivity|].
  destruct (N.eqb_spec c Char.LF) as [->|_]; [tauto|].
  rewrite IH; tauto.
Qed.

Lemma newlines_to_spaces_no_LF s : ~ In Char.LF (Spec.newlines_to_spaces s).
Proof.
  unfold Spec.newlines_to_spaces. intros H. apply in_map_iff in H.
  destruct H as [c [H _]]. destruct (N.eqb_spec c Char.LF); [discriminate|].
  congruence.
Qed.

Lemma normalizer_no_LF s : ~ In Char.LF (remove_extra_spaces_in_uppercase s).
Proof.
  rewrite normalizer_scan. intros H. apply scan_in in H.
  now apply newlines_to_spaces_no_LF in H.
Qed.

(** Applying the normalizer to its own result changes nothing. *)
Lemma normalizer_idempotent s :
  remove_extra_spaces_in_uppercase (remove_extra_spaces_in_uppercase s) =
  remove_extra_spaces_in_uppercase s.
Proof.
  rewrite (normalizer_scan (remove_extra_spaces_in_uppercase s)).
  rewrite newlines_to_spaces_id by apply normalizer_no_LF.
  rewrite normalizer_scan.
  apply scan_scan.
Qed.

(** ** Literals, sequences and search *)

Lemma run_lit_i p : forall s g,
  run (lit_i p) (s, g) =
  if ci_prefix p s then [(skipn (length p) s, g)] else [].
Proof.
  induction p as [|pc p IH]; intros s g; [reflexivity|].
  cbn [lit_i run fst snd ci_prefix length skipn].
  destruct s as [|c s]; [reflexivity|].
  change (mem (LitI pc) c) with (Char.matches_ignorecase pc c).
  destruct (Char.matches_ignorecase pc c); [|reflexivity].
  cbn [flat_map andb]. now rewrite app_nil_r, IH.
Qed.

Lemma ci_prefix_app p x r : ci_word p x -> ci_prefix p (x ++ r) = true.
Proof.
  induction 1 as [|pc c p x Hc _ IH]; [reflexivity|].
  cbn [app ci_prefix]. now rewrite Hc, IH.
Qed.

Lemma ci_prefix_word p s :
  ci_prefix p s = true ->
  ci_word p (firstn (length p) s) /\
  s = firstn (length p) s ++ skipn (length p) s.
Proof.
  revert s. induction p as [|pc p IH]; intros s H.
  - split; [constructor|reflexivity].
  - destruct s as [|c s]; [discriminate|]. cbn [ci_prefix] in H.
    apply andb_true_iff in H. destruct H as [Hc H].
    destruct (IH s H) as [Hw Hs]. cbn [length firstn skipn app]. split.
    + now constructor.
    + now rewrite <- Hs.
Qed.

Lemma ci_word_length p x : ci_word p x -> length x = length p.
Proof. induction 1; simpl; congruence. Qed.

Lemma skipn_ci_word p x r : ci_word p x -> skipn (length p) (x ++ r) = r.
Proof.
  intros H. rewrite <- (ci_word_length _ _ H).
  rewrite skipn_app, skipn_all, Nat.sub_diag. reflexivity.
Qed.

(** A greedy [cs*] before a pattern that no character of [cs] starts. *)
Lemma run_star_then cs b s g :
  (forall c s', mem cs c = true -> run b (c :: s', g) = []) ->
  run (Seq (Star (Chr cs)) b) (s, g) = run b (drop_while (mem cs) s, g).
Proof.
  intros H. change (run (Seq (Star (Chr cs)) b) (s, g))
    with (flat_map (run b) (run (Star (Chr cs)) (s, g))).
  rewrite run_star_chr. now apply flat_map_splits.
Qed.

Lemma run_plus_then cs b s g :
  (forall c s', mem cs c = true -> run b (c :: s', g) = []) ->
  run (Seq (Plus (Chr cs)) b) (s, g) =
  match s with
  | c :: s' => if mem cs c then run b (drop_while (mem cs) s', g) else []
  | [] => []
  end.
Proof.
  intros H. change (run (Seq (Plus (Chr cs)) b) (s, g))
    with (flat_map (run b) (run (Plus (Chr cs)) (s, g))).
  rewrite run_plus_chr. destruct s as [|c s]; [reflexivity|].
  destruct (mem cs c); [|reflexivity]. now apply flat_map_splits.
Qed.

Lemma run_group i a s g :
  run (Group i a) (s, g) =
  map (fun st' => (fst st', (i, consumed s (fst st')) :: snd st')) (run a (s, g)).
Proof. reflexivity. Qed.

Section Search.

Variable r : regex.

Lemma match_at_none pos s : match_at r pos s = None <-> run r (s, []) = [].
Proof.
  unfold match_at. destruct (run r (s, [])) as [|[rest cs] l]; split;
    congruence.
Qed.

(** [search] skips a prefix at no index of which the pattern matches. *)
Lemma search_from_skip pre : forall pos s,
  (forall i, i < length pre -> run r (skipn i (pre ++ s), []) = []) ->
  search_from r pos (pre ++ s) = search_from r (pos + length pre) s.
Proof.
  induction pre as [|c pre IH]; intros pos s H.
  - cbn [app length]. now rewrite Nat.add_0_r.
  - cbn [app search_from].
    assert (H0 := H 0 ltac:(simpl; lia)). cbn [skipn app] in H0.
    apply (match_at_none pos) in H0. rewrite H0.
    rewrite IH.
    + cbn [length]. f_equal. lia.
    + intros i Hi. apply (H (S i)). simpl. lia.
Qed.

Lemma match_at_start pos s m rest :
  match_at r pos s = Some (m, rest) -> start m = pos.
Proof.
  unfold match_at. destruct (run r (s, [])) as [|[? ?] ?]; [discriminate|].
  now intros [= <- _].
Qed.

(** What [search] finds is the match at the least index that has one. *)
Lemma search_from_some pos s m :
  search_from r pos s = Some m ->
  exists i rest,
    i <= length s /\ start m = pos + i /\
    match_at r (pos + i) (skipn i s) = Some (m, rest) /\
    forall j, j < i -> run r (skipn j s, []) = [].
Proof.
  revert pos. induction s as [|c s IH]; intros pos; cbn [search_from].
  - destruct (match_at r pos []) as [[m' rest]|] eqn:E; [|discriminate].
    intros [= <-]. exists 0, rest. rewrite Nat.add_0_r. cbn [skipn].
    split; [lia|]. split; [now apply match_at_start in E|].
    split; [assumption|]. intros j Hj. lia.
  - destruct (match_at r pos (c :: s)) as [[m' rest]|] eqn:E.
    + intros [= <-]. exists 0, rest. rewrite Nat.add_0_r. cbn [skipn].
      split; [lia|]. split; [now apply match_at_start in E|].
      split; [assumption|]. intros j Hj. lia.
    + intros H. apply IH in H. destruct H as [i [rest [Hi [Hs [Hm Hj]]]]].
      exists (S i), rest. cbn [skipn length].
      replace (pos + S i) with (S pos + i) by lia.
      split; [lia|]. split; [assumption|]. split; [assumption|].
      intros [|j] Hlt; cbn [skipn].
      * now apply (match_at_none pos).
      * apply Hj. lia.
Qed.

Lemma search_from_none pos s :
  search_from r pos s = None ->
  forall i, i <= length s -> run r (skipn i s, []) = [].
Proof.
  revert pos. induction s as [|c s IH]; intros pos; cbn [search_from].
  - destruct (match_at r pos []) as [[m' rest]|] eqn:E; [discriminate|].
    intros _ i Hi. simpl in Hi. replace i with 0 by lia.
    now apply (match_at_none pos).
  - destruct (match_at r pos (c :: s)) as [[m' rest]|] eqn:E; [discriminate|].
    intros H [|i] Hi; cbn [skipn].
    + now apply (match_at_none pos).
    + apply (IH _ H). simpl in Hi. lia.
Qed.

End Search.

(** ** Characters of the patterns *)

Lemma ci_cases p x :
  Char.is_lower_az p = true ->
  Char.matches_ignorecase p x = true ->
  (x = p \/ x = p - 32 \/
   (p = 105 /\ (x = Char.CAPITAL_I_DOT \/ x = Char.DOTLESS_I)) \/
   (p = 115 /\ x = Char.LONG_S) \/ (p = 107 /\ x = Char.KELVIN))%N.
Proof.
  unfold Char.matches_ignorecase, Char.sre_lower, Char.ignorecase_fixes,
    Char.CAPITAL_I_DOT, Char.DOTLESS_I, Char.LONG_S, Char.KELVIN, existsb.
  intros Hp.
  assert (Hu : Char.is_upper_az p = false) by char_cases.
  rewrite Hu.
  destruct (N.eqb_spec p 304); [subst; discriminate|].
  destruct (N.eqb_spec p 8490); [subst; discriminate|].
  destruct (Char.is_upper_az x) eqn:Hx;
    [|destruct (N.eqb_spec x 304); [|destruct (N.eqb_spec x 8490)]];
    destruct (N.eqb_spec p 105); try destruct (N.eqb_spec p 115);
    intros H; char_cases.
Qed.

Lemma ci_upper_lower p x :
  Char.is_upper_az p = true ->
  Char.matches_ignorecase p x = Char.matches_ignorecase (p + 32) x.
Proof.
  intros Hp. unfold Char.matches_ignorecase, Char.sre_lower. rewrite Hp.
  assert (Hu : Char.is_upper_az (p + 32) = false) by char_cases.
  rewrite Hu.
  destruct (N.eqb_spec (p + 32) Char.CAPITAL_I_DOT) as [E|_];
    [unfold Char.CAPITAL_I_DOT in E; char_cases|].
  destruct (N.eqb_spec (p + 32) Char.KELVIN) as [E|_];
    [unfold Char.KELVIN in E; char_cases|].
  reflexivity.
Qed.

Lemma ci_word_char p x :
  is_letter p = true -> Char.matches_ignorecase p x = true ->
  word_char x = true.
Proof.
  unfold is_letter. intros Hp H.
  assert (Hl : exists q, Char.is_lower_az q = true /\
                         Char.matches_ignorecase q x = true /\
                         (q = p \/ q = p + 32)%N).
  { destruct (Char.is_upper_az p) eqn:Hu.
    - exists (p + 32)%N. rewrite <- ci_upper_lower by assumption.
      split; [char_cases|]. split; [assumption|]. now right.
    - exists p. cbn [orb] in Hp. split; [assumption|]. split; [assumption|].
      now left. }
  destruct Hl as [q [Hq [Hm _]]].
  destruct (ci_cases q x Hq Hm) as [->|[->|[[_ [->| ->]]|[[_ ->]| [_ ->]]]]];
    try reflexivity; unfold word_char, is_letter.
  - now rewrite Hq, orb_true_r.
  - assert (Hx : Char.is_upper_az (q - 32) = true) by char_cases.
    now rewrite Hx.
Qed.

Lemma word_char_not_space x : word_char x = true -> Char.is_space x = false.
Proof.
  unfold word_char, is_letter, Char.CAPITAL_I_DOT, Char.DOTLESS_I,
    Char.LONG_S, Char.KELVIN. intros H. char_cases.
Qed.

Lemma digit_zeros_low :
  Forall (fun z => z = 48 \/ 1632 <= z)%N Char.digit_zeros.
Proof. unfold Char.digit_zeros. repeat (constructor; [lia|]). constructor. Qed.

Lemma is_digit_range x :
  Char.is_digit x = true ->
  exists z, In z Char.digit_zeros /\ (z <= x <= z + 9)%N.
Proof.
  unfold Char.is_digit, Char.digit_value.
  destruct (find _ Char.digit_zeros) as [z|] eqn:E; [|discriminate].
  intros _. apply find_some in E. destruct E as [Hin Hr].
  exists z. split; [assumption|]. char_cases.
Qed.

Lemma is_digit_low x :
  Char.is_digit x = true -> (x < 1632)%N -> (48 <= x <= 57)%N.
Proof.
  intros H Hx. apply is_digit_range in H. destruct H as [z [Hin Hr]].
  pose proof digit_zeros_low as HF. rewrite Forall_forall in HF.
  destruct (HF z Hin); lia.
Qed.

Lemma word_char_not_digit x : word_char x = true -> Char.is_digit x = false.
Proof.
  intros H. destruct (Char.is_digit x) eqn:E; [|reflexivity].
  destruct (N.eqb_spec x Char.KELVIN) as [->|Hk]; [discriminate|].
  assert (Hx : (x < 1632)%N).
  { unfold word_char, is_letter, Char.CAPITAL_I_DOT, Char.DOTLESS_I,
      Char.LONG_S, Char.KELVIN in *. char_cases. }
  pose proof (is_digit_low x E Hx).
  unfold word_char, is_letter, Char.CAPITAL_I_DOT, Char.DOTLESS_I,
    Char.LONG_S, Char.KELVIN in *. char_cases.
Qed.

Lemma word_char_not_comma x : word_char x = true -> N.eqb x Char.COMMA = false.
Proof.
  intros H. destruct (N.eqb_spec x Char.COMMA) as [->|]; [discriminate|].
  reflexivity.
Qed.

Lemma digit_zeros_space_free : forallb space_free Char.digit_zeros = true.
Proof. vm_compute. reflexivity. Qed.

Lemma digit_not_space x : Char.is_digit x = true -> Char.is_space x = false.
Proof.
  intros H. apply is_digit_range in H. destruct H as [z [Hin Hr]].
  pose proof digit_zeros_space_free as HF. rewrite forallb_forall in HF.
  specialize (HF z Hin). unfold space_free in HF. rewrite forallb_forall in HF.
  specialize (HF (x - z)%N).
  replace (z + (x - z))%N with x in HF by lia.
  apply negb_true_iff. apply HF.
  assert (Hd : (x - z = 0 \/ x - z = 1 \/ x - z = 2 \/ x - z = 3 \/ x - z = 4
                \/ x - z = 5 \/ x - z = 6 \/ x - z = 7 \/ x - z = 8
                \/ x - z = 9)%N) by lia.
  simpl. intuition.
Qed.

Lemma digit_or_comma_not_space x :
  digit_or_comma x = true -> Char.is_space x = false.
Proof.
  unfold digit_or_comma. intros H. apply orb_true_iff in H.
  destruct H as [H|H]; [now apply digit_not_space|].
  apply N.eqb_eq in H. now subst.
Qed.

Lemma digit_or_comma_not_word x :
  digit_or_comma x = true -> word_char x = false.
Proof.
  intros H. destruct (word_char x) eqn:E; [|reflexivity].
  unfold digit_or_comma in H.
  now rewrite (word_char_not_digit x E), (word_char_not_comma x E) in H.
Qed.

Lemma space_not_word x : Char.is_space x = true -> word_char x = false.
Proof.
  intros H. destruct (word_char x) eqn:E; [|reflexivity].
  apply word_char_not_space in E. congruence.
Qed.

(** A word of letters does not start where a character of another kind
    stands. *)
Lemma ci_prefix_reject pc p c s :
  is_letter pc = true -> word_char c = false ->
  ci_prefix (pc :: p) (c :: s) = false.
Proof.
  intros Hp Hc. cbn [ci_prefix].
  destruct (Char.matches_ignorecase pc c) eqn:E; [|reflexivity].
  apply (ci_word_char pc c Hp) in E. congruence.
Qed.

(** ** The four patterns of [parse_key_data] *)

Lemma lit_i_reject p c s g :
  match p with pc :: _ => is_letter pc = true | [] => False end ->
  word_char c = false ->
  run (lit_i p) (c :: s, g) = [].
Proof.
  intros Hp Hc. rewrite run_lit_i. destruct p as [|pc p]; [contradiction|].
  now rewrite ci_prefix_reject.
Qed.

Lemma run_lit_i_then p b s g :
  run (Seq (lit_i p) b) (s, g) =
  if ci_prefix p s then run b (skipn (length p) s, g) else [].
Proof.
  change (run (Seq (lit_i p) b) (s, g))
    with (flat_map (run b) (run (lit_i p) (s, g))).
  rewrite run_lit_i. destruct (ci_prefix p s); [|reflexivity].
  cbn [flat_map]. apply app_nil_r.
Qed.

Lemma split_at_prefix (s : str) n : s = firstn n s ++ skipn n s.
Proof. symmetry. apply firstn_skipn. Qed.

Lemma match_at_prop_name pos s :
  match_at prop_name_pattern pos s =
  match prop_name_at s with
  | Some (x, rest) => Some (Match pos x [(1, x)], rest)
  | None => None
  end.
Proof.
  unfold match_at, prop_name_pattern, prop_name_at.
  rewrite run_group, run_lit_i_then.
  change (length (u "280")) with 3.
  destruct (ci_prefix (u "280") s) eqn:E280; [|reflexivity].
  rewrite run_plus_then.
  2:{ intros c s' Hc. apply lit_i_reject; [reflexivity|].
      now apply space_not_word. }
  pose proof (split_at_prefix s 3) as Hs.
  destruct (skipn 3 s) as [|c s2]; [reflexivity|].
  change (mem Space c) with (Char.is_space c).
  change (mem Space) with Char.is_space.
  destruct (Char.is_space c); [|reflexivity].
  rewrite run_lit_i. change (length (u "RICHARDS")) with 8.
  pose proof (take_drop_while Char.is_space s2) as Hw.
  set (s3 := drop_while Char.is_space s2) in *.
  destruct (ci_prefix (u "RICHARDS") s3); [|reflexivity].
  cbn [map fst snd].
  assert (Hx : s = (firstn 3 s ++ (c :: take_while Char.is_space s2)
                      ++ firstn 8 s3) ++ skipn 8 s3).
  { rewrite <- !app_assoc, firstn_skipn. cbn [app]. rewrite Hw. exact Hs. }
  rewrite Hx at 1 2. rewrite consumed_app. reflexivity.
Qed.

Lemma consumed_skipn (s : str) n : consumed s (skipn n s) = firstn n s.
Proof.
  rewrite (split_at_prefix s n) at 1. apply consumed_app.
Qed.

Lemma hd_error_app (A : Type) (a b : list A) :
  hd_error (a ++ b) =
  match hd_error a with Some x => Some x | None => hd_error b end.
Proof. destruct a; reflexivity. Qed.

Lemma match_at_hd r pos s :
  match_at r pos s =
  match hd_error (run r (s, [])) with
  | Some (rest, cs) => Some (Match pos (consumed s rest) cs, rest)
  | None => None
  end.
Proof.
  unfold match_at. destruct (run r (s, [])) as [|[rest cs] l]; reflexivity.
Qed.

Lemma run_city s2 g :
  hd_error (run city_pattern (s2, g)) =
  match city_at s2 with
  | Some (c, rest) => Some (rest, (2, c) :: g)
  | None => None
  end.
Proof.
  unfold city_pattern, city_at. rewrite run_star_then.
  2:{ intros c s' Hc. rewrite run_group, run_lit_i_then.
      change (u "NEWYOR") with (78 :: u "EWYOR")%N.
      rewrite ci_prefix_reject; [reflexivity|reflexivity|].
      now apply space_not_word. }
  change (mem Space) with Char.is_space.
  set (s3 := drop_while Char.is_space s2).
  rewrite run_group, run_lit_i_then. change (length (u "NEWYOR")) with 6.
  destruct (ci_prefix (u "NEWYOR") s3); [|reflexivity].
  unfold Opt. cbn [run]. rewrite run_lit_i. change (length (u "CITY")) with 4.
  destruct (ci_prefix (u "CITY") (skipn 6 s3)); cbn [app map hd_error fst snd].
  - rewrite skipn_skipn. cbn [Nat.add]. now rewrite consumed_skipn.
  - now rewrite consumed_skipn.
Qed.

Lemma match_at_address pos s :
  match_at address_pattern pos s =
  match address_at s with
  | Some (b, c, rest) => Some (Match pos (consumed s rest) [(2, c); (1, b)], rest)
  | None => None
  end.
Proof.
  rewrite match_at_hd. unfold address_pattern, address_at.
  change (Seq (Star (Chr Space))
            (Group 2 (Seq (lit_i (u "NEWYOR")) (Opt (lit_i (u "CITY"))))))
    with city_pattern.
  change (run (Seq (Group 1 (lit_i (u "BROOKLYN")))
                 (Seq (Opt (Chr (Lit Char.COMMA))) city_pattern)) (s, []))
    with (flat_map (run (Seq (Opt (Chr (Lit Char.COMMA))) city_pattern))
            (run (Group 1 (lit_i (u "BROOKLYN"))) (s, []))).
  rewrite run_group, run_lit_i. change (length (u "BROOKLYN")) with 8.
  destruct (ci_prefix (u "BROOKLYN") s); [|reflexivity].
  cbn [map flat_map fst snd]. rewrite app_nil_r, consumed_skipn.
  set (g := [(1, firstn 8 s)]).
  change (run (Seq (Opt (Chr (Lit Char.COMMA))) city_pattern) (skipn 8 s, g))
    with (flat_map (run city_pattern)
            (run (Chr (Lit Char.COMMA)) (skipn 8 s, g) ++ [(skipn 8 s, g)])).
  rewrite flat_map_app, hd_error_app. cbn [flat_map].
  rewrite app_nil_r, (run_city (skipn 8 s) g).
  cbn [run fst snd mem].
  destruct (skipn 8 s) as [|c s1'].
  - cbn [flat_map hd_error]. destruct (city_at []) as [[c rest]|]; reflexivity.
  - destruct (N.eqb c Char.COMMA).
    + cbn [flat_map]. rewrite app_nil_r, (run_city s1' g).
      destruct (city_at s1') as [[x rest]|]; [reflexivity|].
      destruct (city_at (c :: s1')) as [[x rest]|]; reflexivity.
    + cbn [flat_map hd_error].
      destruct (city_at (c :: s1')) as [[x rest]|]; reflexivity.
Qed.

Lemma flat_map_map (A B C : Type) (f : B -> list C) (h : A -> B) l :
  flat_map f (map h l) = flat_map (fun x => f (h x)) l.
Proof. induction l as [|x l IH]; simpl; [reflexivity|]. now rewrite IH. Qed.

Lemma hd_error_nil (A : Type) (l : list A) : hd_error l = None -> l = [].
Proof. destruct l; [reflexivity|discriminate]. Qed.

Lemma consumed_take_while p c (s : str) :
  consumed (c :: s) (drop_while p s) = c :: take_while p s.
Proof.
  rewrite <- (take_drop_while p s) at 1.
  change (c :: take_while p s ++ drop_while p s)
    with ((c :: take_while p s) ++ drop_while p s).
  apply consumed_app.
Qed.

(** A captured greedy [cs+] before a pattern that no character of [cs]
    starts. *)
Lemma run_group_plus_then i cs b s g :
  (forall c s' g', mem cs c = true -> run b (c :: s', g') = []) ->
  run (Seq (Group i (Plus (Chr cs))) b) (s, g) =
  match s with
  | c :: s' =>
      if mem cs c
      then run b (drop_while (mem cs) s', (i, c :: take_while (mem cs) s') :: g)
      else []
  | [] => []
  end.
Proof.
  intros H.
  change (run (Seq (Group i (Plus (Chr cs))) b) (s, g))
    with (flat_map (run b) (run (Group i (Plus (Chr cs))) (s, g))).
  rewrite run_group, run_plus_chr. destruct s as [|c s]; [reflexivity|].
  destruct (mem cs c); [|reflexivity].
  rewrite flat_map_map.
  rewrite (flat_map_splits _
             (fun x : state =>
                run b (fst x, (i, consumed (c :: s) (fst x)) :: snd x))).
  - cbn [fst snd]. now rewrite consumed_take_while.
  - intros d s' Hd. cbn [fst snd]. now apply H.
Qed.

Lemma drop_while_reject p c s : p c = false -> drop_while p (c :: s) = c :: s.
Proof. intros H. cbn [drop_while]. now rewrite H. Qed.

Lemma run_alt a b st : run (Alt a b) st = run a st ++ run b st.
Proof. reflexivity. Qed.

Lemma run_unit s1 g :
  hd_error (run unit_pattern (s1, g)) =
  match unit_at s1 with Some rest => Some (rest, g) | None => None end.
Proof.
  unfold unit_pattern, unit_at. rewrite run_star_then.
  2:{ intros c s' Hc. rewrite run_alt, run_lit_i_then, run_lit_i.
      change (u "square") with (115 :: u "quare")%N.
      change (u "sf") with (115 :: u "f")%N.
      rewrite !ci_prefix_reject; try reflexivity; now apply space_not_word. }
  change (mem Space) with Char.is_space.
  set (s2 := drop_while Char.is_space s1).
  rewrite run_alt, hd_error_app, run_lit_i_then.
  change (length (u "square")) with 6.
  destruct (ci_prefix (u "square") s2); cbn [andb].
  - rewrite run_star_then.
    2:{ intros c s' Hc. apply lit_i_reject; [reflexivity|].
        now apply space_not_word. }
    change (mem Space) with Char.is_space.
    rewrite !run_lit_i. change (length (u "feet")) with 4.
    change (length (u "sf")) with 2.
    destruct (ci_prefix (u "feet") _); [reflexivity|].
    destruct (ci_prefix (u "sf") s2); reflexivity.
  - rewrite run_lit_i. change (length (u "sf")) with 2.
    destruct (ci_prefix (u "sf") s2); reflexivity.
Qed.

Lemma unit_at_reject c s : word_char c = false -> Char.is_space c = false ->
  unit_at (c :: s) = None.
Proof.
  intros Hw Hs. unfold unit_at. rewrite (drop_while_reject _ _ _ Hs).
  change (u "square") with (115 :: u "quare")%N.
  change (u "sf") with (115 :: u "f")%N.
  now rewrite !ci_prefix_reject.
Qed.

Lemma match_at_sqft pos s :
  match_at sqft_pattern pos s =
  match sqft_at s with
  | Some (d, rest) => Some (Match pos (consumed s rest) [(1, d)], rest)
  | None => None
  end.
Proof.
  rewrite match_at_hd. unfold sqft_pattern, sqft_at.
  change (Seq (Star (Chr Space)) _) with unit_pattern.
  rewrite run_group_plus_then.
  2:{ intros c s' g' Hc. apply hd_error_nil. rewrite run_unit.
      change (mem (Union Digit (Lit Char.COMMA)) c) with (digit_or_comma c) in Hc.
      rewrite unit_at_reject; [reflexivity| |].
      - now apply digit_or_comma_not_word.
      - now apply digit_or_comma_not_space. }
  destruct s as [|c s]; [reflexivity|].
  change (mem (Union Digit (Lit Char.COMMA))) with digit_or_comma.
  destruct (digit_or_comma c); [|reflexivity].
  rewrite run_unit.
  destruct (unit_at (drop_while digit_or_comma s)); reflexivity.
Qed.

Lemma run_k_suffix s1 g :
  run k_suffix (s1, g) =
  match drop_while Char.is_space s1 with
  | k :: rest => if Char.matches_ignorecase 75 k then [(rest, g)] else []
  | [] => []
  end.
Proof.
  unfold k_suffix. rewrite run_star_then.
  - reflexivity.
  - intros c s' Hc. cbn [run fst mem].
    destruct (Char.matches_ignorecase 75 c) eqn:E; [|reflexivity].
    apply ci_word_char in E; [|reflexivity].
    apply space_not_word in Hc. congruence.
Qed.

Lemma match_at_k pos s :
  match_at k_pattern pos s =
  match k_at s with
  | Some (d, rest) => Some (Match pos (consumed s rest) [(1, d)], rest)
  | None => None
  end.
Proof.
  rewrite match_at_hd. unfold k_pattern, k_at.
  change (Seq (Star (Chr Space)) _) with k_suffix.
  rewrite run_group_plus_then.
  2:{ intros c s' g' Hc. rewrite run_k_suffix.
      change (mem Digit c) with (Char.is_digit c) in Hc.
      rewrite (drop_while_reject _ _ _ (digit_not_space _ Hc)).
      destruct (Char.matches_ignorecase 75 c) eqn:E; [|reflexivity].
      apply ci_word_char in E; [|reflexivity].
      apply word_char_not_digit in E. congruence. }
  destruct s as [|c s]; [reflexivity|].
  change (mem Digit) with Char.is_digit.
  destruct (Char.is_digit c); [|reflexivity].
  rewrite run_k_suffix.
  destruct (drop_while Char.is_space (drop_while Char.is_digit s)) as [|k rest];
    [reflexivity|].
  destruct (Char.matches_ignorecase 75 k); reflexivity.
Qed.

(** ** Case mappings of the words the patterns accept *)

Lemma ci_cases_upper p x :
  Char.is_upper_az p = true ->
  Char.matches_ignorecase p x = true ->
  (x = p \/ x = p + 32 \/
   (p = 73 /\ (x = Char.CAPITAL_I_DOT \/ x = Char.DOTLESS_I)) \/
   (p = 83 /\ x = Char.LONG_S) \/ (p = 75 /\ x = Char.KELVIN))%N.
Proof.
  intros Hp H. rewrite ci_upper_lower in H by assumption.
  apply ci_cases in H; [|char_cases].
  unfold Char.CAPITAL_I_DOT, Char.DOTLESS_I, Char.LONG_S, Char.KELVIN in *.
  char_cases.
Qed.

Ltac exotic_cases :=
  unfold Char.lower, Char.upper, Char.title, Char.is_cased,
    Char.CAPITAL_I_DOT, Char.DOTLESS_I, Char.LONG_S, Char.KELVIN,
    Char.COMBINING_DOT in *.

Lemma lower_ci p x :
  Char.is_upper_az p = true -> Char.matches_ignorecase p x = true ->
  x <> Char.CAPITAL_I_DOT -> x <> Char.DOTLESS_I -> x <> Char.LONG_S ->
  Char.lower x = [(p + 32)%N] /\ Char.is_cased x = true.
Proof.
  intros Hp H H1 H2 H3.
  destruct (ci_cases_upper p x Hp H) as [->|[->|[[_ [E|E]]|[[_ E]|[-> ->]]]]];
    try congruence; try (split; reflexivity).
  - exotic_cases. rewrite Hp. cbn [orb].
    destruct (N.eqb_spec p 304); [congruence|].
    split; reflexivity.
  - assert (Hu : Char.is_upper_az (p + 32) = false) by char_cases.
    assert (Hl : Char.is_lower_az (p + 32) = true) by char_cases.
    exotic_cases. rewrite Hu, Hl.
    destruct (N.eqb_spec (p + 32) 304); [char_cases|].
    destruct (N.eqb_spec (p + 32) 8490); [char_cases|].
    split; reflexivity.
Qed.

Lemma title_ci p x :
  Char.is_upper_az p = true -> Char.matches_ignorecase p x = true ->
  x <> Char.CAPITAL_I_DOT -> x <> Char.KELVIN ->
  Char.title x = [p] /\ Char.is_cased x = true.
Proof.
  intros Hp H H1 H2.
  destruct (ci_cases_upper p x Hp H) as [-> | [-> | [[-> [E | ->]] | [[-> ->] | [_ E]]]]];
    try congruence; try (split; reflexivity).
  - assert (Hl : Char.is_lower_az p = false) by char_cases.
    exotic_cases. rewrite Hp, Hl. cbn [orb].
    destruct (N.eqb_spec p 305); [char_cases|].
    destruct (N.eqb_spec p 383); [char_cases|].
    split; reflexivity.
  - assert (Hl : Char.is_lower_az (p + 32) = true) by char_cases.
    exotic_cases. rewrite Hl, orb_true_r. cbn [orb].
    split; [|reflexivity]. f_equal. lia.
Qed.

Lemma upper_ci p x :
  Char.is_upper_az p = true -> Char.matches_ignorecase p x = true ->
  x <> Char.CAPITAL_I_DOT -> x <> Char.KELVIN ->
  Char.upper x = [p].
Proof.
  intros Hp H H1 H2.
  destruct (ci_cases_upper p x Hp H) as [-> | [-> | [[-> [E | ->]] | [[-> ->] | [_ E]]]]];
    try congruence; try reflexivity.
  - assert (Hl : Char.is_lower_az p = false) by char_cases.
    exotic_cases. rewrite Hl.
    destruct (N.eqb_spec p 305); [char_cases|].
    destruct (N.eqb_spec p 383); [char_cases|].
    reflexivity.
  - assert (Hl : Char.is_lower_az (p + 32) = true) by char_cases.
    exotic_cases. rewrite Hl. f_equal. lia.
Qed.

(** The exceptional characters stand for [I], [S] and [K] only. *)
Lemma ci_plain p x :
  Char.is_upper_az p = true -> Char.matches_ignorecase p x = true ->
  p <> 73%N -> p <> 83%N ->
  x <> Char.CAPITAL_I_DOT /\ x <> Char.DOTLESS_I /\ x <> Char.LONG_S
  /\ (p <> 75%N -> x <> Char.KELVIN).
Proof.
  intros Hp H Hi Hs.
  destruct (ci_cases_upper p x Hp H) as [->|[->|[[E _]|[[E _]|[-> ->]]]]];
    try congruence;
    unfold Char.CAPITAL_I_DOT, Char.DOTLESS_I, Char.LONG_S, Char.KELVIN;
    repeat split; char_cases.
Qed.

(** Lower-casing a word after a cased character. *)
Lemma title_from_ci_word p x :
  ci_word p x ->
  Forall (fun c => Char.is_upper_az c = true) p ->
  Forall (fun c => c <> Char.CAPITAL_I_DOT /\ c <> Char.DOTLESS_I
                   /\ c <> Char.LONG_S) x ->
  forall rest,
    PyStr.title_from true (x ++ rest) =
    map (fun c => (c + 32)%N) p ++ PyStr.title_from true rest.
Proof.
  induction 1 as [|pc c p x Hc _ IH]; intros Hp Hx rest; [reflexivity|].
  inversion Hp as [|? ? Hpc Hp']; subst.
  inversion Hx as [|? ? [H1 [H2 H3]] Hx']; subst.
  cbn [app PyStr.title_from map].
  destruct (lower_ci pc c Hpc Hc H1 H2 H3) as [-> ->].
  now rewrite (IH Hp' Hx').
Qed.

Lemma upper_ci_word p x :
  ci_word p x ->
  Forall (fun c => Char.is_upper_az c = true /\ c <> 75%N) p ->
  ~ In Char.CAPITAL_I_DOT x ->
  PyStr.upper x = p.
Proof.
  unfold PyStr.upper.
  induction 1 as [|pc c p x Hc _ IH]; intros Hp Hx; [reflexivity|].
  inversion Hp as [|? ? [Hpc Hk] Hp']; subst.
  cbn [flat_map]. rewrite IH; [|assumption|intros Hin; apply Hx; now right].
  rewrite (upper_ci pc c Hpc Hc).
  - reflexivity.
  - intros ->. apply Hx. now left.
  - intros Hc'.
    destruct (ci_cases_upper pc c Hpc Hc)
      as [E | [E | [[_ [E | E]] | [[_ E] | [E _]]]]];
      unfold Char.KELVIN, Char.CAPITAL_I_DOT, Char.DOTLESS_I, Char.LONG_S in *;
      try congruence; char_cases.
Qed.

(** ** Characters of the normalized text *)

Lemma normalizer_in c s :
  In c (remove_extra_spaces_in_uppercase s) -> In c s \/ c = Char.SPACE.
Proof.
  rewrite normalizer_scan. intros H. apply scan_in in H. cbn [Spec.pending app] in H.
  unfold Spec.newlines_to_spaces in H. apply in_map_iff in H.
  destruct H as [d [Hd Hin]]. destruct (N.eqb d Char.LF); subst; auto.
Qed.

Lemma skipn_in (c : N) n s : In c (skipn n s) -> In c s.
Proof.
  intros H. rewrite (split_at_prefix s n). apply in_or_app. now right.
Qed.

(** ** The address *)

Lemma ci_word_chars p x c :
  ci_word p x -> Forall (fun c => is_letter c = true) p ->
  In c x -> word_char c = true.
Proof.
  induction 1 as [|pc d p x Hd _ IH]; intros Hp Hin; [contradiction|].
  inversion Hp; subst. destruct Hin as [<-|Hin].
  - eapply ci_word_char; eassumption.
  - now apply IH.
Qed.

Lemma drop_while_spaces_word w c x :
  spaces w -> word_char c = true ->
  drop_while Char.is_space (w ++ c :: x) = c :: x.
Proof.
  intros Hw Hc. rewrite drop_while_app by assumption.
  apply drop_while_reject. now apply word_char_not_space.
Qed.

Lemma ci_word_app p q x :
  ci_word (p ++ q) x ->
  exists x1 x2, x = x1 ++ x2 /\ ci_word p x1 /\ ci_word q x2.
Proof.
  intros H. apply Forall2_app_inv_l in H.
  destruct H as [x1 [x2 [H1 [H2 ->]]]]. now exists x1, x2.
Qed.

Lemma firstn_ci_word p x r : ci_word p x -> firstn (length p) (x ++ r) = x.
Proof.
  intros H. rewrite <- (ci_word_length _ _ H).
  rewrite firstn_app, firstn_all, Nat.sub_diag. cbn [firstn]. apply app_nil_r.
Qed.

Opaque firstn skipn.

Lemma city_at_sound s2 c rest :
  city_at s2 = Some (c, rest) ->
  exists w, s2 = w ++ c ++ rest /\ spaces w
    /\ (ci_word (u "NEWYORCITY") c \/ ci_word (u "NEWYOR") c).
Proof.
  unfold city_at. pose proof (take_drop_while Char.is_space s2) as Hw.
  pose proof (take_while_all Char.is_space s2) as Hsp.
  set (s3 := drop_while Char.is_space s2) in *.
  destruct (ci_prefix (u "NEWYOR") s3) eqn:E1; [|discriminate].
  apply ci_prefix_word in E1. change (length (u "NEWYOR")) with 6 in E1.
  destruct E1 as [H6 Hs3].
  destruct (ci_prefix (u "CITY") (skipn 6 s3)) eqn:E2.
  - apply ci_prefix_word in E2. change (length (u "CITY")) with 4 in E2.
    destruct E2 as [H4 Hs4]. intros [= <- <-].
    exists (take_while Char.is_space s2).
    assert (H10 : firstn 10 s3 = firstn 6 s3 ++ firstn 4 (skipn 6 s3)).
    { rewrite Hs3 at 1. rewrite firstn_app, firstn_firstn.
      rewrite length_firstn. pose proof (ci_word_length _ _ H6) as L.
      rewrite length_firstn in L. change (length (u "NEWYOR")) with 6 in L.
      rewrite L. reflexivity. }
    split; [|split; [assumption|left]].
    + rewrite H10, <- app_assoc, <- Hs4, <- Hs3. now rewrite Hw.
    + rewrite H10. change (u "NEWYORCITY") with (u "NEWYOR" ++ u "CITY").
      now apply Forall2_app.
  - intros [= <- <-]. exists (take_while Char.is_space s2).
    split; [|split; [assumption|now right]].
    now rewrite <- Hs3, Hw.
Qed.

Lemma city_at_complete w c rest :
  spaces w -> ci_word (u "NEWYORCITY") c ->
  city_at (w ++ c ++ rest) = Some (c, rest).
Proof.
  intros Hw Hc. unfold city_at.
  change (u "NEWYORCITY") with (u "NEWYOR" ++ u "CITY") in Hc.
  apply ci_word_app in Hc. destruct Hc as [c6 [c4 [-> [H6 H4]]]].
  assert (Hd : drop_while Char.is_space (w ++ (c6 ++ c4) ++ rest)
               = (c6 ++ c4) ++ rest).
  { destruct c6 as [|n c6]; [inversion H6|].
    cbn [app]. apply drop_while_spaces_word; [assumption|].
    inversion H6; subst. eapply ci_word_char; [|eassumption]. reflexivity. }
  assert (H10 : ci_word (u "NEWYORCITY") (c6 ++ c4)).
  { change (u "NEWYORCITY") with (u "NEWYOR" ++ u "CITY"). now apply Forall2_app. }
  assert (Hf : firstn 10 ((c6 ++ c4) ++ rest) = c6 ++ c4)
    by exact (firstn_ci_word _ _ rest H10).
  assert (Hs6 : skipn 6 (c6 ++ c4 ++ rest) = c4 ++ rest)
    by exact (skipn_ci_word _ _ (c4 ++ rest) H6).
  assert (Hs4 : skipn 4 (c4 ++ rest) = rest)
    by exact (skipn_ci_word _ _ rest H4).
  rewrite Hd, Hf, <- !app_assoc.
  rewrite (ci_prefix_app _ _ _ H6), Hs6, (ci_prefix_app _ _ _ H4), Hs4.
  reflexivity.
Qed.

Lemma address_at_sound s b c rest :
  address_at s = Some (b, c, rest) ->
  ci_word (u "BROOKLYN") b
  /\ (ci_word (u "NEWYORCITY") c \/ ci_word (u "NEWYOR") c)
  /\ exists comma w,
       s = b ++ comma ++ w ++ c ++ rest
       /\ (comma = [] \/ comma = [Char.COMMA]) /\ spaces w.
Proof.
  unfold address_at.
  destruct (ci_prefix (u "BROOKLYN") s) eqn:E; [|discriminate].
  apply ci_prefix_word in E. change (length (u "BROOKLYN")) with 8 in E.
  destruct E as [Hb Hs].
  destruct (skipn 8 s) as [|c0 s1'] eqn:E8.
  - destruct (city_at []) as [[x r]|] eqn:Ec; [|discriminate].
    intros [= <- <- <-]. apply city_at_sound in Ec.
    destruct Ec as [w [Hw [Hsp Hc]]]. split; [assumption|]. split; [assumption|].
    exists [], w. cbn [app]. rewrite <- Hw. auto.
  - assert (Hno : forall x r, city_at (c0 :: s1') = Some (x, r) ->
                    ci_word (u "BROOKLYN") (firstn 8 s)
                    /\ (ci_word (u "NEWYORCITY") x \/ ci_word (u "NEWYOR") x)
                    /\ exists comma w,
                         s = firstn 8 s ++ comma ++ w ++ x ++ r
                         /\ (comma = [] \/ comma = [Char.COMMA]) /\ spaces w).
    { intros x r Ec. apply city_at_sound in Ec.
      destruct Ec as [w [Hw [Hsp Hc]]]. split; [assumption|].
      split; [assumption|]. exists [], w. cbn [app]. rewrite <- Hw. auto. }
    destruct (N.eqb_spec c0 Char.COMMA) as [->|_].
    + destruct (city_at s1') as [[x r]|] eqn:Ec.
      * intros [= <- <- <-]. apply city_at_sound in Ec.
        destruct Ec as [w [Hw [Hsp Hc]]]. split; [assumption|].
        split; [assumption|]. exists [Char.COMMA], w. cbn [app].
        rewrite <- Hw. auto.
      * destruct (city_at (Char.COMMA :: s1')) as [[x r]|] eqn:Ec';
          [|discriminate].
        intros [= <- <- <-]. now apply Hno.
    + destruct (city_at (c0 :: s1')) as [[x r]|] eqn:Ec'; [|discriminate].
      intros [= <- <- <-]. now apply Hno.
Qed.

Lemma head_not_comma w c rest :
  spaces w -> ci_word (u "NEWYORCITY") c ->
  match w ++ c ++ rest with
  | c0 :: _ => N.eqb c0 Char.COMMA = false
  | [] => True
  end.
Proof.
  intros Hw Hc. destruct w as [|c0 w]; cbn [app].
  - inversion Hc as [|? d ? ? Hd]; subst. cbn [app].
    apply word_char_not_comma. eapply ci_word_char; [|eassumption]. reflexivity.
  - inversion Hw as [|? ? H0 _]; subst.
    destruct (N.eqb_spec c0 Char.COMMA) as [->|]; [discriminate|reflexivity].
Qed.

Lemma address_at_complete b comma w c rest :
  ci_word (u "BROOKLYN") b -> comma = [] \/ comma = [Char.COMMA] ->
  spaces w -> ci_word (u "NEWYORCITY") c ->
  address_at (b ++ comma ++ w ++ c ++ rest) = Some (b, c, rest).
Proof.
  intros Hb Hcomma Hw Hc. unfold address_at.
  assert (Hs : skipn 8 (b ++ comma ++ w ++ c ++ rest) = comma ++ w ++ c ++ rest)
    by exact (skipn_ci_word _ _ _ Hb).
  assert (Hf : firstn 8 (b ++ comma ++ w ++ c ++ rest) = b)
    by exact (firstn_ci_word _ _ _ Hb).
  rewrite (ci_prefix_app _ _ _ Hb), Hs, Hf.
  destruct Hcomma as [-> | ->]; cbn [app].
  - rewrite (city_at_complete w c rest Hw Hc).
    pose proof (head_not_comma w c rest Hw Hc) as Hh.
    destruct (w ++ c ++ rest) as [|c0 s1']; [reflexivity|].
    now rewrite Hh.
  - rewrite N.eqb_refl. now rewrite (city_at_complete w c rest Hw Hc).
Qed.

Transparent firstn skipn.

Lemma search_from_here r pos s m rest :
  match_at r pos s = Some (m, rest) -> search_from r pos s = Some m.
Proof. intros H. destruct s; cbn [search_from]; now rewrite H. Qed.

Lemma ci_word_plain p x :
  ci_word p x ->
  Forall (fun c => Char.is_upper_az c = true /\ c <> 73%N /\ c <> 83%N) p ->
  Forall (fun c => c <> Char.CAPITAL_I_DOT /\ c <> Char.DOTLESS_I
                   /\ c <> Char.LONG_S) x.
Proof.
  induction 1 as [|pc c p x Hc _ IH]; intros Hp; [constructor|].
  inversion Hp as [|? ? [Hu [Hi Hs]] Hp']; subst. constructor; [|now apply IH].
  destruct (ci_plain pc c Hu Hc Hi Hs) as [H1 [H2 [H3 _]]]. auto.
Qed.

Lemma title_brooklyn b : ci_word (u "BROOKLYN") b -> PyStr.title b = u "Brooklyn".
Proof.
  intros Hb. change (u "BROOKLYN") with (66 :: u "ROOKLYN")%N in Hb.
  inversion Hb as [|? b0 ? b' H0 Hb']; subst.
  unfold PyStr.title. cbn [PyStr.title_from].
  destruct (ci_plain 66 b0 eq_refl H0 ltac:(discriminate) ltac:(discriminate))
    as [H1 [_ [_ Hk]]].
  destruct (title_ci 66 b0 eq_refl H0 H1 (Hk ltac:(discriminate))) as [-> ->].
  rewrite <- (app_nil_r b').
  rewrite (title_from_ci_word (u "ROOKLYN") b' Hb').
  - reflexivity.
  - repeat constructor.
  - apply (ci_word_plain (u "ROOKLYN")); [assumption|].
    repeat constructor; discriminate.
Qed.

Lemma upper_newyorcity c :
  ci_word (u "NEWYORCITY") c -> ~ In Char.CAPITAL_I_DOT c ->
  PyStr.upper c = u "NEWYORCITY".
Proof.
  intros Hc Hn. apply upper_ci_word; [assumption| |assumption].
  repeat constructor; discriminate.
Qed.

Lemma upper_newyor c :
  ci_word (u "NEWYOR") c -> ~ In Char.CAPITAL_I_DOT c ->
  PyStr.upper c = u "NEWYOR".
Proof.
  intros Hc Hn. apply upper_ci_word; [assumption| |assumption].
  repeat constructor; discriminate.
Qed.

(** ** The property name *)

Lemma ci_uncased p x :
  (p < 65)%N -> Char.matches_ignorecase p x = true -> x = p.
Proof.
  unfold Char.matches_ignorecase, Char.sre_lower, Char.ignorecase_fixes,
    Char.CAPITAL_I_DOT, Char.DOTLESS_I, Char.LONG_S, Char.KELVIN, existsb.
  intros Hp.
  assert (Hu : Char.is_upper_az p = false) by char_cases.
  rewrite Hu.
  destruct (N.eqb_spec p 304); [lia|]. destruct (N.eqb_spec p 8490); [lia|].
  destruct (N.eqb_spec p 105); [lia|]. destruct (N.eqb_spec p 115); [lia|].
  destruct (Char.is_upper_az x) eqn:Hx;
    [|destruct (N.eqb_spec x 304); [|destruct (N.eqb_spec x 8490)]];
    intros H; char_cases.
Qed.

Lemma ci_word_280 x : ci_word (u "280") x -> x = u "280".
Proof.
  intros H. change (u "280") with [50; 56; 48]%N in *.
  inversion H as [|? c1 ? x1 H1 H']; subst.
  inversion H' as [|? c2 ? x2 H2 H'']; subst.
  inversion H'' as [|? c3 ? x3 H3 H''']; subst.
  inversion H'''; subst.
  apply ci_uncased in H1; [|reflexivity]. apply ci_uncased in H2; [|reflexivity].
  apply ci_uncased in H3; [|reflexivity]. now subst.
Qed.

Lemma take_while_app p w s :
  Forall (fun c => p c = true) w ->
  match s with c :: _ => p c = false | [] => True end ->
  take_while p (w ++ s) = w.
Proof.
  intros Hw Hs. induction Hw as [|c w Hc _ IH]; cbn [app take_while].
  - destruct s as [|c s]; [reflexivity|]. cbn [take_while]. now rewrite Hs.
  - now rewrite Hc, IH.
Qed.

Lemma ci_word_richards_head r post :
  ci_word (u "RICHARDS") r ->
  match r ++ post with c :: _ => Char.is_space c = false | [] => True end.
Proof.
  intros H. change (u "RICHARDS") with (82 :: u "ICHARDS")%N in H.
  inversion H as [|? c ? r' Hc _]; subst. cbn [app].
  apply word_char_not_space. eapply ci_word_char; [|eassumption]. reflexivity.
Qed.

Opaque firstn skipn.

Lemma prop_name_at_sound s x rest :
  prop_name_at s = Some (x, rest) ->
  exists w r, s = x ++ rest /\ x = u "280" ++ w ++ r
    /\ w <> [] /\ spaces w /\ ci_word (u "RICHARDS") r.
Proof.
  unfold prop_name_at.
  destruct (ci_prefix (u "280") s) eqn:E; [|discriminate].
  apply ci_prefix_word in E. change (length (u "280")) with 3 in E.
  destruct E as [H280 Hs]. apply ci_word_280 in H280.
  destruct (skipn 3 s) as [|c s2] eqn:E3; [discriminate|].
  destruct (Char.is_space c) eqn:Hc; [|discriminate].
  pose proof (take_drop_while Char.is_space s2) as Hw.
  pose proof (take_while_all Char.is_space s2) as Hsp.
  set (s3 := drop_while Char.is_space s2) in *.
  destruct (ci_prefix (u "RICHARDS") s3) eqn:E8; [|discriminate].
  apply ci_prefix_word in E8. change (length (u "RICHARDS")) with 8 in E8.
  destruct E8 as [Hr Hs3]. intros [= <- <-].
  exists (c :: take_while Char.is_space s2), (firstn 8 s3).
  rewrite H280 in *. split.
  - rewrite <- !app_assoc. cbn [app]. rewrite <- !app_assoc, <- Hs3, Hw.
    exact Hs.
  - split; [reflexivity|]. split; [discriminate|].
    split; [now constructor|assumption].
Qed.

Lemma prop_name_at_complete w r post :
  w <> [] -> spaces w -> ci_word (u "RICHARDS") r ->
  prop_name_at (u "280" ++ w ++ r ++ post) = Some (u "280" ++ w ++ r, post).
Proof.
  intros Hne Hw Hr. unfold prop_name_at.
  assert (H280 : ci_word (u "280") (u "280")) by (repeat constructor).
  assert (Hs : skipn 3 (u "280" ++ w ++ r ++ post) = w ++ r ++ post)
    by exact (skipn_ci_word _ _ _ H280).
  assert (Hf : firstn 3 (u "280" ++ w ++ r ++ post) = u "280")
    by exact (firstn_ci_word _ _ _ H280).
  assert (Hs8 : skipn 8 (r ++ post) = post)
    by exact (skipn_ci_word _ _ _ Hr).
  assert (Hf8 : firstn 8 (r ++ post) = r)
    by exact (firstn_ci_word _ _ _ Hr).
  rewrite (ci_prefix_app _ _ _ H280), Hs, Hf.
  destruct w as [|c w]; [congruence|]. inversion Hw as [|? ? Hc Hw']; subst.
  cbn [app]. rewrite Hc.
  pose proof (ci_word_richards_head r post Hr) as Hh.
  rewrite drop_while_app, (drop_while_stop _ _ Hh) by assumption.
  rewrite (take_while_app _ _ _ Hw' Hh).
  rewrite (ci_prefix_app _ _ _ Hr), Hs8, Hf8.
  reflexivity.
Qed.

Transparent firstn skipn.

Lemma space_uncased c :
  Char.is_space c = true ->
  Char.title c = [c] /\ Char.lower c = [c] /\ Char.is_cased c = false.
Proof.
  intros H.
  assert (H1 : Char.is_lower_az c = false) by char_cases.
  assert (H2 : Char.is_upper_az c = false) by char_cases.
  exotic_cases. rewrite H1, H2.
  destruct (N.eqb_spec c 304); [char_cases|].
  destruct (N.eqb_spec c 305); [char_cases|].
  destruct (N.eqb_spec c 383); [char_cases|].
  destruct (N.eqb_spec c 8490); [char_cases|].
  repeat split.
Qed.

Lemma title_from_spaces w rest b :
  spaces w -> w <> [] ->
  PyStr.title_from b (w ++ rest) = w ++ PyStr.title_from false rest.
Proof.
  intros Hw. revert b. induction Hw as [|c w Hc Hw IH]; intros b Hne;
    [congruence|].
  cbn [app PyStr.title_from].
  destruct (space_uncased c Hc) as [-> [-> ->]].
  destruct w as [|d w].
  - destruct b; reflexivity.
  - rewrite IH by discriminate. destruct b; reflexivity.
Qed.

Lemma lstrip_id s :
  match s with c :: _ => Char.is_space c = false | [] => True end ->
  PyStr.lstrip s = s.
Proof. destruct s as [|c s]; [reflexivity|]. cbn. now intros ->. Qed.

Lemma ci_word_last p pc x :
  ci_word (p ++ [pc]) x -> is_letter pc = true ->
  exists x' c, x = x' ++ [c] /\ word_char c = true.
Proof.
  intros H Hp. apply ci_word_app in H. destruct H as [x1 [x2 [-> [_ H2]]]].
  inversion H2 as [|? c ? ? Hc Hnil]; subst. inversion Hnil; subst.
  exists x1, c. split; [reflexivity|]. eapply ci_word_char; eassumption.
Qed.

Lemma strip_prop_name w r :
  ci_word (u "RICHARDS") r ->
  PyStr.strip (u "280" ++ w ++ r) = u "280" ++ w ++ r.
Proof.
  intros Hr. unfold PyStr.strip.
  rewrite (lstrip_id (u "280" ++ w ++ r)) by reflexivity.
  change (u "RICHARDS") with (u "RICHARD" ++ [83%N]) in Hr.
  apply ci_word_last in Hr; [|reflexivity].
  destruct Hr as [r' [c [-> Hc]]].
  rewrite !app_assoc, rev_app_distr. cbn [rev app].
  rewrite lstrip_id by (now apply word_char_not_space).
  change (c :: rev (((u "280" ++ w) ++ r')))
    with (rev [c] ++ rev ((u "280" ++ w) ++ r')).
  rewrite <- rev_app_distr. apply rev_involutive.
Qed.

Lemma title_prop_name w r :
  spaces w -> w <> [] ->
  PyStr.title (u "280" ++ w ++ r) = u "280" ++ w ++ PyStr.title r.
Proof.
  intros Hw Hne. unfold PyStr.title.
  change (u "280" ++ w ++ r) with (50 :: 56 :: 48 :: w ++ r)%N.
  cbn [PyStr.title_from]. 
  change (Char.title 50) with [50%N]. change (Char.title 56) with [56%N].
  change (Char.title 48) with [48%N].
  change (Char.is_cased 50) with false. change (Char.is_cased 56) with false.
  change (Char.is_cased 48) with false.
  cbn [app]. now rewrite title_from_spaces.
Qed.

Lemma title_richards r :
  ci_word (u "RICHARDS") r -> Forall is_ascii r ->
  PyStr.title r = u "Richards".
Proof.
  intros Hr Ha. change (u "RICHARDS") with (82 :: u "ICHARDS")%N in Hr.
  inversion Hr as [|? r0 ? r' H0 Hr']; subst.
  inversion Ha as [|? ? Ha0 Ha']; subst.
  unfold PyStr.title. cbn [PyStr.title_from].
  destruct (ci_plain 82 r0 eq_refl H0 ltac:(discriminate) ltac:(discriminate))
    as [H1 [_ [_ Hk]]].
  destruct (title_ci 82 r0 eq_refl H0 H1 (Hk ltac:(discriminate))) as [-> ->].
  rewrite <- (app_nil_r r').
  rewrite (title_from_ci_word (u "ICHARDS") r' Hr').
  - reflexivity.
  - repeat constructor.
  - eapply Forall_impl; [|exact Ha']. unfold is_ascii.
    intros c Hc. unfold Char.CAPITAL_I_DOT, Char.DOTLESS_I, Char.LONG_S.
    repeat split; lia.
Qed.

Lemma skipn_app_exact (pre s : str) : skipn (length pre) (pre ++ s) = s.
Proof. rewrite skipn_app, skipn_all, Nat.sub_diag. reflexivity. Qed.

Lemma prop_name_occurs_run t pre w r post :
  prop_name_occurs t pre w r post ->
  run prop_name_pattern (skipn (length pre) t, []) <> [].
Proof.
  intros [-> [Hne [Hw Hr]]] Hrun.
  apply (match_at_none prop_name_pattern 0) in Hrun.
  rewrite skipn_app_exact, match_at_prop_name in Hrun.
  now rewrite prop_name_at_complete in Hrun.
Qed.

(** ** Square footage *)

Lemma scan_no_upper del x y :
  Forall (fun c => Char.is_upper_az c = false) x ->
  Spec.scan del None (x ++ y) = x ++ Spec.scan del None y.
Proof.
  induction 1 as [|c x Hc _ IH]; [reflexivity|].
  cbn [app Spec.scan Spec.pending]. rewrite Hc, IH.
  destruct (Char.is_space c); reflexivity.
Qed.

Lemma newlines_to_spaces_app x y :
  Spec.newlines_to_spaces (x ++ y) =
  Spec.newlines_to_spaces x ++ Spec.newlines_to_spaces y.
Proof. apply map_app. Qed.

(** A phrase that starts with a character that is neither white space nor
    an upper-case letter, and holds no upper-case letter and no newline,
    stands in the normalized text as it is. *)
Lemma normalizer_around pre c x post :
  Char.is_space c = false ->
  Forall (fun d => Char.is_upper_az d = false /\ d <> Char.LF) (c :: x) ->
  remove_extra_spaces_in_uppercase (pre ++ (c :: x) ++ post) =
  remove_extra_spaces_in_uppercase pre ++ (c :: x)
    ++ remove_extra_spaces_in_uppercase post.
Proof.
  intros Hc Hx. rewrite !normalizer_scan, !newlines_to_spaces_app.
  assert (Hid : Spec.newlines_to_spaces (c :: x) = c :: x).
  { apply newlines_to_spaces_id. intros Hin.
    rewrite Forall_forall in Hx. now destruct (Hx _ Hin). }
  rewrite Hid. inversion Hx as [|? ? [Hu _] Hx']; subst.
  cbn [app]. rewrite scan_barrier by assumption.
  rewrite scan_no_upper; [reflexivity|].
  eapply Forall_impl; [|exact Hx']. now intros d [H _].
Qed.

Lemma normalizer_forall (P : N -> Prop) s :
  P Char.SPACE -> Forall P s -> Forall P (remove_extra_spaces_in_uppercase s).
Proof.
  intros Hsp Hs. rewrite Forall_forall in *. intros c Hc.
  apply normalizer_in in Hc. destruct Hc as [Hc| ->]; auto.
Qed.

Lemma skipn_head_in (pre s : str) i :
  i < length pre -> exists c rest, skipn i (pre ++ s) = c :: rest /\ In c pre.
Proof.
  revert i. induction pre as [|d pre IH]; intros i Hi; [simpl in Hi; lia|].
  destruct i as [|i].
  - exists d, (pre ++ s). split; [reflexivity|now left].
  - simpl in Hi. destruct (IH i ltac:(lia)) as [c [rest [H Hin]]].
    exists c, rest. split; [exact H|now right].
Qed.

(** [search] skips a prefix of characters that cannot start a match. *)
Lemma search_skip_class r (p : N -> bool) pre s pos :
  (forall c x, p c = false -> run r (c :: x, []) = []) ->
  Forall (fun c => p c = false) pre ->
  search_from r pos (pre ++ s) = search_from r (pos + length pre) s.
Proof.
  intros Hr Hpre. apply search_from_skip. intros i Hi.
  destruct (skipn_head_in pre s i Hi) as [c [rest [-> Hin]]].
  apply Hr. rewrite Forall_forall in Hpre. now apply Hpre.
Qed.

Lemma sqft_start c x :
  digit_or_comma c = false -> run sqft_pattern (c :: x, []) = [].
Proof.
  intros H. apply (match_at_none sqft_pattern 0). rewrite match_at_sqft.
  cbn [sqft_at]. now rewrite H.
Qed.

Lemma k_start c x : Char.is_digit c = false -> run k_pattern (c :: x, []) = [].
Proof.
  intros H. apply (match_at_none k_pattern 0). rewrite match_at_k.
  cbn [k_at]. now rewrite H.
Qed.


Lemma digit_not_upper c : Char.is_digit c = true -> Char.is_upper_az c = false.
Proof.
  intros H. destruct (Char.is_upper_az c) eqn:E; [|reflexivity].
  assert (Hlt : (c < 1632)%N) by char_cases.
  pose proof (is_digit_low c H Hlt). char_cases.
Qed.

Lemma digit_or_comma_plain c :
  digit_or_comma c = true ->
  Char.is_space c = false /\ Char.is_upper_az c = false /\ c <> Char.LF.
Proof.
  intros H. pose proof (digit_or_comma_not_space c H) as Hs.
  split; [assumption|]. split.
  - unfold digit_or_comma in H. apply orb_true_iff in H.
    destruct H as [H|H]; [now apply digit_not_upper|].
    apply N.eqb_eq in H. now subst.
  - intros ->. discriminate.
Qed.

Lemma is_digit_or_comma c : Char.is_digit c = true -> digit_or_comma c = true.
Proof. unfold digit_or_comma. now intros ->. Qed.

Lemma normalizer_around_k pre post :
  remove_extra_spaces_in_uppercase (pre ++ u "312K" ++ post) =
  remove_extra_spaces_in_uppercase pre ++ u "312K"
    ++ Spec.scan is_SPACE (Some []) (Spec.newlines_to_spaces post).
Proof.
  rewrite !normalizer_scan, !newlines_to_spaces_app.
  change (Spec.newlines_to_spaces (u "312K")) with [51; 49; 50; 75]%N.
  change ([51; 49; 50; 75]%N ++ Spec.newlines_to_spaces post)
    with (51 :: [49; 50; 75] ++ Spec.newlines_to_spaces post)%N.
  rewrite scan_barrier by reflexivity. reflexivity.
Qed.

(** ** The arguments of the string methods

    The case mappings and [int] are exact on the characters shown here to
    be the only ones that [parse_key_data] passes to them. *)

Lemma word_char_in_domain c : word_char c = true -> Char.in_domain c = true.
Proof.
  unfold word_char, is_letter, Char.in_domain. intros H.
  repeat rewrite orb_true_iff in *.
  destruct H as [[[[[H|H]|H]|H]|H]|H]; auto 10.
  - left. left. left. left. left. apply N.ltb_lt. char_cases.
  - left. left. left. left. left. apply N.ltb_lt. char_cases.
Qed.

Lemma ci_word_in_domain p x :
  ci_word p x -> Forall (fun c => is_letter c = true) p ->
  Forall (fun c => Char.in_domain c = true) x.
Proof.
  intros H Hp. apply Forall_forall. intros c Hc.
  apply word_char_in_domain. eapply ci_word_chars; eassumption.
Qed.

Lemma upper_in_domain c :
  word_char c = true -> Forall (fun d => Char.in_domain d = true) (Char.upper c).
Proof.
  intros H. unfold Char.upper.
  destruct (Char.is_lower_az c) eqn:Hl.
  - constructor; [|constructor]. unfold Char.in_domain.
    assert (Hlt : (c - 32 <? 128)%N = true) by (apply N.ltb_lt; char_cases).
    now rewrite Hlt.
  - destruct (N.eqb c Char.DOTLESS_I); [repeat constructor|].
    destruct (N.eqb c Char.LONG_S); [repeat constructor|].
    constructor; [|constructor]. now apply word_char_in_domain.
Qed.

Lemma captured_in_domain (t : str) (m : match_) :
  let dom := Forall (fun c => Char.in_domain c = true) in
  (search prop_name_pattern t = Some m -> dom (group m 1))
  /\ (search address_pattern t = Some m ->
      dom (group m 1) /\ dom (group m 2) /\ dom (PyStr.upper (group m 2))).
Proof.
  intros dom. subst dom. split; intros E; apply search_from_some in E;
    destruct E as [i [rest [_ [_ [Hm _]]]]].
  - rewrite match_at_prop_name in Hm.
    destruct (prop_name_at (skipn i t)) as [[x rest']|] eqn:Ea; [|discriminate].
    injection Hm as <- _. cbn [group caps lookup Nat.eqb].
    apply prop_name_at_sound in Ea.
    destruct Ea as [w [r [_ [-> [_ [Hw Hr]]]]]].
    apply Forall_app. split; [repeat constructor|].
    apply Forall_app. split.
    + eapply Forall_impl; [|exact Hw]. intros c Hc.
      unfold Char.in_domain. rewrite Hc. now rewrite orb_true_r.
    + apply (ci_word_in_domain (u "RICHARDS")); [assumption|repeat constructor].
  - rewrite match_at_address in Hm.
    destruct (address_at (skipn i t)) as [[[b c] rest']|] eqn:Ea;
      [|discriminate].
    injection Hm as <- _. cbn [group caps lookup Nat.eqb].
    apply address_at_sound in Ea. destruct Ea as [Hb [Hc _]].
    assert (Hcw : Forall (fun d => word_char d = true) c).
    { apply Forall_forall. intros d Hd.
      destruct Hc as [Hc|Hc];
        (eapply ci_word_chars; [exact Hc|repeat constructor|exact Hd]). }
    split; [|split].
    + apply (ci_word_in_domain (u "BROOKLYN")); [assumption|repeat constructor].
    + eapply Forall_impl; [|exact Hcw]. apply word_char_in_domain.
    + unfold PyStr.upper. clear Hc.
      induction Hcw as [|d c' Hd _ IH]; [constructor|].
      cbn [flat_map]. apply Forall_app. split; [now apply upper_in_domain|exact IH].
Qed.

Lemma replace_comma_digits d :
  Forall (fun c => digit_or_comma c = true) d ->
  Forall (fun c => Char.is_digit c = true) (Str.replace_char Char.COMMA [] d).
Proof.
  rewrite replace_char_delete. induction 1 as [|c d Hc _ IH]; [constructor|].
  cbn [filter]. unfold digit_or_comma in Hc.
  destruct (N.eqb c Char.COMMA); cbn [negb]; [exact IH|].
  rewrite orb_false_r in Hc. now constructor.
Qed.

(** [int] is given strings of decimal digits only. *)
Lemma int_argument_digits (t : str) (m : match_) :
  let digits := Forall (fun c => Char.is_digit c = true) in
  (search sqft_pattern t = Some m ->
   digits (Str.replace_char Char.COMMA [] (group m 1)))
  /\ (search k_pattern t = Some m -> digits (group m 1)).
Proof.
  intros digits. subst digits. split; intros E; apply search_from_some in E;
    destruct E as [i [rest [_ [_ [Hm _]]]]].
  - rewrite match_at_sqft in Hm. unfold sqft_at in Hm.
    destruct (skipn i t) as [|c s']; [discriminate|].
    destruct (digit_or_comma c) eqn:Hc; [|discriminate].
    destruct (unit_at (drop_while digit_or_comma s')); [|discriminate].
    injection Hm as <- _. cbn [group caps lookup Nat.eqb].
    apply replace_comma_digits. constructor; [assumption|].
    apply take_while_all.
  - rewrite match_at_k in Hm. unfold k_at in Hm.
    destruct (skipn i t) as [|c s']; [discriminate|].
    destruct (Char.is_digit c) eqn:Hc; [|discriminate].
    destruct (drop_while Char.is_space (drop_while Char.is_digit s'))
      as [|k rest0]; [discriminate|].
    destruct (Char.matches_ignorecase 75 k); [|discriminate].
    injection Hm as <- _. cbn [group caps lookup Nat.eqb].
    constructor; [assumption|]. apply take_while_all.
Qed.

(** ** The handler after the extraction *)

Lemma parse_pdf_api_of_text f text :
  filename f <> [] ->
  extract_text_from_pdf (content f) = inr text ->
  let k := parse_key_data text in
  parse_pdf_api (Request (Some f)) =
  if serializes k then
    if none_in_values k then (ErrorExtracted COULD_NOT_EXTRACT k, 422)
    else (Data k, 200)
  else (Error INT_TO_STR_ERROR, 500).
Proof.
  intros Hname Htext k. unfold parse_pdf_api. cbn [files].
  assert (Hn : Str.eqb (filename f) [] = false).
  { unfold Str.eqb. destruct (list_eq_dec N.eq_dec (filename f) []);
      [contradiction|reflexivity]. }
  rewrite Hn, Htext. fold k. unfold jsonify.
  destruct (none_in_values k); destruct (serializes k); reflexivity.
Qed.

(** ** Texts without a unit of area *)

Lemma unit_start_app x y : unit_start y = true -> unit_start (x ++ y) = true.
Proof.
  intros H. induction x as [|a x IH]; [exact H|].
  cbn [app unit_start]. rewrite IH. apply orb_true_r.
Qed.

Lemma ci_prefix_two p1 p2 p s :
  ci_prefix (p1 :: p2 :: p) s = true ->
  exists c c' s', s = c :: c' :: s'
    /\ Char.matches_ignorecase p1 c = true
    /\ Char.matches_ignorecase p2 c' = true.
Proof.
  destruct s as [|c [|c' s']]; cbn [ci_prefix]; intros H.
  - discriminate.
  - apply andb_true_iff in H. destruct H as [_ H]. discriminate.
  - apply andb_true_iff in H. destruct H as [H1 H].
    apply andb_true_iff in H. destruct H as [H2 _].
    now exists c, c', s'.
Qed.

Lemma unit_at_start s1 rest : unit_at s1 = Some rest -> unit_start s1 = true.
Proof.
  unfold unit_at. intros H.
  rewrite <- (take_drop_while Char.is_space s1). apply unit_start_app.
  set (s2 := drop_while Char.is_space s1) in *.
  destruct (ci_prefix (u "square") s2) eqn:E1.
  - change (u "square") with (115 :: 113 :: u "uare")%N in E1.
    apply ci_prefix_two in E1. destruct E1 as [c [c' [s' [-> [Hc Hc']]]]].
    cbn [unit_start]. now rewrite Hc, Hc'.
  - cbn [andb] in H. destruct (ci_prefix (u "sf") s2) eqn:E2; [|discriminate].
    change (u "sf") with (115 :: 102 :: [])%N in E2.
    apply ci_prefix_two in E2. destruct E2 as [c [c' [s' [-> [Hc Hc']]]]].
    cbn [unit_start]. rewrite Hc, Hc'. now rewrite orb_true_r.
Qed.

(** A text in which no [s] is followed by a [q] or an [f] has no match of
    the square-feet pattern. *)
Lemma no_unit_no_sqft t :
  unit_start t = false -> search sqft_pattern t = None.
Proof.
  intros H. destruct (search sqft_pattern t) as [m|] eqn:E; [|reflexivity].
  apply search_from_some in E. destruct E as [i [rest [_ [_ [Hm _]]]]].
  rewrite match_at_sqft in Hm. unfold sqft_at in Hm.
  pose proof (firstn_skipn i t) as Hsplit.
  destruct (skipn i t) as [|c s']; [discriminate|].
  destruct (digit_or_comma c); [|discriminate].
  destruct (unit_at (drop_while digit_or_comma s')) as [r|] eqn:Eu;
    [|discriminate].
  apply unit_at_start in Eu.
  assert (Ht : unit_start t = true).
  { rewrite <- Hsplit. apply unit_start_app.
    rewrite <- (take_drop_while digit_or_comma s').
    change (c :: take_while digit_or_comma s' ++ drop_while digit_or_comma s')
      with ((c :: take_while digit_or_comma s')
              ++ drop_while digit_or_comma s').
    now apply unit_start_app. }
  congruence.
Qed.

(** * The claims of the specification *)

(** ** The Whitespace Normalizer *)

(** The example of the docstring. *)
Example normalizer_brooklyn :
  remove_extra_spaces_in_uppercase (u "B R O O K LY N") = u "BROOKLYN".
Proof. vm_compute. reflexivity. Qed.

(** A single upper-case letter and spaced text in lower or mixed case are
    not touched. *)
Example normalizer_untouched :
  remove_extra_spaces_in_uppercase (u "A b c  D e F") = u "A b c  D e F".
Proof. vm_compute. reflexivity. Qed.

(** C6, as the specification states it, fails: the white space of a run
    that is not the space character stays.  In ["A<TAB>B"] the tab is
    kept, while deleting all white space gives ["AB"]. *)
Lemma normalizer_keeps_tab :
  remove_extra_spaces_in_uppercase [65; 9; 66]%N = [65; 9; 66]%N
  /\ Spec.normalize Char.is_space [65; 9; 66]%N = [65; 66]%N
  /\ remove_extra_spaces_in_uppercase [65; 9; 66]%N
     <> Spec.normalize Char.is_space [65; 9; 66]%N.
Proof. repeat split; vm_compute; congruence. Qed.

(** C6, amended: for every input string the normalizer replaces every
    newline by one space, then deletes the space characters (U+0020, and no
    other white space) within every maximal run of two or more upper-case
    ASCII letters separated by white space, and leaves every other
    character unchanged. *)
Theorem normalizer_deletes_spaces_of_runs (s : str) :
  remove_extra_spaces_in_uppercase s = Spec.normalize is_SPACE s.
Proof.
  unfold remove_extra_spaces_in_uppercase, Spec.normalize, Spec.collapse, sub.
  rewrite replace_char_map. fold (Spec.newlines_to_spaces s).
  generalize (Spec.newlines_to_spaces s). intros t.
  apply sub_from_collapse.
Qed.

(** C7: the normalizer is idempotent. *)
Theorem normalizer_twice (s : str) :
  remove_extra_spaces_in_uppercase (remove_extra_spaces_in_uppercase s) =
  remove_extra_spaces_in_uppercase s.
Proof.
  rewrite (normalizer_scan (remove_extra_spaces_in_uppercase s)).
  rewrite newlines_to_spaces_id by apply normalizer_no_LF.
  rewrite normalizer_scan. apply scan_scan.
Qed.

(** C10: normalizing the text before [parse_key_data] changes nothing,
    since [parse_key_data] normalizes its input itself. *)
Theorem parse_key_data_of_normalized (s : str) :
  parse_key_data (remove_extra_spaces_in_uppercase s) = parse_key_data s.
Proof. unfold parse_key_data. now rewrite normalizer_idempotent. Qed.

(** ** The Text Extractor *)

Lemma extract_pages_segments ts : forall text,
  extract_pages text (map PageText ts) = inr (text ++ concat (map segment ts)).
Proof.
  induction ts as [|t ts IH]; intros text; cbn [map extract_pages concat].
  - now rewrite app_nil_r.
  - destruct t as [[|c x]|]; rewrite IH; cbn [segment text_of app].
    + reflexivity.
    + now rewrite <- app_assoc.
    + reflexivity.
Qed.

(** C8, as the specification states it, fails: the text of a one-page
    document ends with a line break, which joining the pages does not
    give, and a page with no text leaves no empty segment. *)
Lemma extract_text_not_joined :
  extract_text_from_pdf (Pages [PageText (Some (u "a"))])
  = inr (u "a" ++ [Char.LF])
  /\ extract_text_from_pdf (Pages [PageText (Some (u "a"))])
     <> inr (joined_pages [Some (u "a")]).
Proof. split; vm_compute; congruence. Qed.

(** C8, amended: for every PDF whose pages yield the page texts [ts], the
    Text Extractor returns the texts that are not empty, in order, each
    followed by one line break; a page with no text adds nothing. *)
Theorem extract_text_segments (ts : list (option str)) :
  extract_text_from_pdf (Pages (map PageText ts)) =
  inr (concat (map segment ts)).
Proof.
  unfold extract_text_from_pdf. now rewrite extract_pages_segments.
Qed.

(** ** The HTTP handler *)

Lemma none_in_values_false k : none_in_values k = false <-> all_fields k.
Proof.
  unfold none_in_values, all_fields.
  destruct (property_name k), (address k), (total_rentable_square_footage k);
    intuition congruence.
Qed.

Lemma none_in_values_true k : none_in_values k = true <-> some_field_null k.
Proof.
  unfold none_in_values, some_field_null.
  destruct (property_name k), (address k), (total_rentable_square_footage k);
    intuition congruence.
Qed.

Lemma long_number_fields :
  parse_key_data (long_number_text ++ [Char.LF])
  = KeyData (Some (u "280 Richards")) (Some BROOKLYN_NEW_YORK_CITY)
      (Some ((10 ^ 4298 - 1) * 1000)%Z).
Proof.
  unfold parse_key_data.
  assert (Hc : remove_extra_spaces_in_uppercase (long_number_text ++ [Char.LF])
               = long_number_text ++ [Char.SPACE])
    by (vm_compute; reflexivity).
  rewrite Hc. cbv zeta.
  rewrite (no_unit_no_sqft (long_number_text ++ [Char.SPACE]))
    by (vm_compute; reflexivity).
  vm_compute. reflexivity.
Qed.

(** C4, as the specification states it, fails: when the square footage has
    more than 4300 digits, [jsonify] raises within [try] and the handler
    answers 500.  On a lease of 4298 nines and [K] the three fields are
    non-null, and the answer is neither 200 nor 422. *)
Lemma handler_500_on_long_number :
  let f := Upload (u "lease.pdf") (Pages [PageText (Some long_number_text)]) in
  let key_data := parse_key_data (long_number_text ++ [Char.LF]) in
  extract_text_from_pdf (content f) = inr (long_number_text ++ [Char.LF])
  /\ all_fields key_data
  /\ parse_pdf_api (Request (Some f)) = (Error INT_TO_STR_ERROR, 500)
  /\ parse_pdf_api (Request (Some f)) <> (Data key_data, 200).
Proof.
  intros f key_data.
  assert (He : extract_text_from_pdf (content f)
               = inr (long_number_text ++ [Char.LF])) by reflexivity.
  assert (Hr : parse_pdf_api (Request (Some f)) = (Error INT_TO_STR_ERROR, 500)).
  { rewrite (parse_pdf_api_of_text f _ ltac:(discriminate) He).
    rewrite long_number_fields. vm_compute. reflexivity. }
  split; [exact He|]. split; [|split; [exact Hr|rewrite Hr; discriminate]].
  subst key_data. rewrite long_number_fields.
  repeat split; discriminate.
Qed.

(** C4, amended: once the text of the upload is extracted, the handler
    answers 200 with the record exactly when the three fields are non-null
    and the square footage can be written by [jsonify] (it has at most 4300
    digits); it answers 422 with the error message and the partial record
    when a field is null and the square footage can be written; and it
    answers 500 with the message of the conversion error when the square
    footage has more than 4300 digits. *)
Theorem handler_after_extraction (pdf_file : upload) (pdf_text : str) :
  filename pdf_file <> [] ->
  extract_text_from_pdf (content pdf_file) = inr pdf_text ->
  let key_data := parse_key_data pdf_text in
  let resp := parse_pdf_api (Request (Some pdf_file)) in
  (serializes key_data = true ->
   (all_fields key_data -> resp = (Data key_data, 200))
   /\ (some_field_null key_data ->
       resp = (ErrorExtracted
                 (u "Could not reliably extract all key information.") key_data,
               422)))
  /\ (serializes key_data = false -> resp = (Error INT_TO_STR_ERROR, 500))
  /\ (snd resp = 200 <-> all_fields key_data /\ serializes key_data = true).
Proof.
  intros Hname Htext key_data resp. subst resp.
  rewrite (parse_pdf_api_of_text pdf_file pdf_text Hname Htext). fold key_data.
  destruct (serializes key_data) eqn:Es.
  - destruct (none_in_values key_data) eqn:E.
    + apply none_in_values_true in E as Hnull.
      assert (Hnot : ~ all_fields key_data).
      { intros H. apply none_in_values_false in H. congruence. }
      split; [intros _; split; [tauto|reflexivity]|].
      split; [discriminate|]. cbn [snd]. split; [discriminate|tauto].
    + apply none_in_values_false in E as Hall.
      split; [intros _; split; [reflexivity|]|].
      * intros H. apply none_in_values_true in H. congruence.
      * split; [discriminate|]. cbn [snd]. tauto.
  - split; [discriminate|]. split; [reflexivity|]. cbn [snd].
    split; [discriminate|]. intros [_ H]. discriminate.
Qed.

(** C4 on an upload with the three fields. *)
Lemma handler_after_extraction_witness :
  parse_pdf_api
    (Request (Some (Upload (u "lease.pdf")
       (Pages [PageText (Some (u "280 RICHARDS")); PageText None;
               PageText (Some (u "BROOKLYN, NEWYORCITY 312,000 sf"))]))))
  = (Data (KeyData (Some (u "280 Richards"))
             (Some (u "Brooklyn, New York City")) (Some 312000%Z)), 200).
Proof.
  apply (handler_after_extraction
           (Upload (u "lease.pdf")
              (Pages [PageText (Some (u "280 RICHARDS")); PageText None;
                      PageText (Some (u "BROOKLYN, NEWYORCITY 312,000 sf"))]))
           (u "280 RICHARDS" ++ [Char.LF]
              ++ u "BROOKLYN, NEWYORCITY 312,000 sf" ++ [Char.LF])).
  - discriminate.
  - reflexivity.
  - vm_compute. reflexivity.
  - vm_compute. repeat split; discriminate.
Defined.

(** ** Square footage *)

(** C5: when the square-feet pattern matches, the field is the integer
    read from that match and nothing else; it is null when the digits do not
    parse, whatever the rest of the text holds. *)
Theorem sqft_match_decides (s : str) (m : match_) :
  search sqft_pattern (remove_extra_spaces_in_uppercase s) = Some m ->
  let sqft_str := Str.replace_char Char.COMMA [] (group m 1) in
  total_rentable_square_footage (parse_key_data s) = PyStr.int sqft_str
  /\ (PyStr.int sqft_str = None ->
      total_rentable_square_footage (parse_key_data s) = None).
Proof.
  intros H sqft_str. unfold parse_key_data.
  cbn [total_rentable_square_footage]. rewrite H. fold sqft_str.
  split; [reflexivity|auto].
Qed.

(** C5 on [", sf 312K"]: the square-feet pattern matches a comma, the field
    is null, and the K pattern, which matches ["312K"], is not used. *)
Lemma sqft_match_decides_witness :
  search k_pattern (remove_extra_spaces_in_uppercase (u ", sf 312K")) <> None
  /\ total_rentable_square_footage (parse_key_data (u ", sf 312K")) = None.
Proof.
  split; [vm_compute; discriminate|].
  refine (proj2 (sqft_match_decides (u ", sf 312K")
                   (Match 0 (u ", sf") [(1, u ",")]) _) _);
    vm_compute; reflexivity.
Defined.

(** ** The address *)

(** C1, as the specification states it, fails: in the text
    ["Brooklyn, New York City"] the pattern finds no address, and in its
    upper-case form, which the normalizer turns into
    ["BROOKLYN, NEWYORKCITY"], it finds ["Brooklyn, New York"]. *)
Lemma address_of_plain_text :
  address (parse_key_data (u "Brooklyn, New York City")) = None
  /\ address (parse_key_data (u "Brooklyn, New York City"))
     <> Some BROOKLYN_NEW_YORK_CITY
  /\ address (parse_key_data (u "BROOKLYN, NEW YORK CITY"))
     = Some BROOKLYN_NEW_YORK
  /\ address (parse_key_data (u "BROOKLYN, NEW YORK CITY"))
     <> Some BROOKLYN_NEW_YORK_CITY.
Proof. repeat split; vm_compute; congruence. Qed.

(** C1, amended: for every input text whose normalized form holds
    BROOKLYN, an optional comma, optional white space and NEWYORCITY (in any
    letter case, without the letter U+0130), with no match of the address
    pattern starting before it, the address is
    ["Brooklyn, New York City"]. *)
Theorem address_new_york_city (s pre b comma w c post : str) :
  remove_extra_spaces_in_uppercase s = pre ++ b ++ comma ++ w ++ c ++ post ->
  ci_word (u "BROOKLYN") b ->
  comma = [] \/ comma = [Char.COMMA] ->
  spaces w ->
  ci_word (u "NEWYORCITY") c ->
  ~ In Char.CAPITAL_I_DOT c ->
  (forall i, i < length pre ->
     match_at address_pattern i
       (skipn i (remove_extra_spaces_in_uppercase s)) = None) ->
  address (parse_key_data s) = Some BROOKLYN_NEW_YORK_CITY.
Proof.
  intros Ht Hb Hcomma Hw Hc Hdot Hleft.
  unfold parse_key_data. cbn [address]. rewrite Ht in *.
  unfold search. rewrite search_from_skip.
  2:{ intros i Hi. apply (match_at_none address_pattern i). now apply Hleft. }
  erewrite search_from_here.
  2:{ rewrite match_at_address, address_at_complete by assumption.
      reflexivity. }
  cbn [group caps lookup Nat.eqb].
  rewrite (title_brooklyn b Hb), (upper_newyorcity c Hc Hdot).
  reflexivity.
Qed.

(** C1 on a spaced-out upper-case text. *)
Lemma address_new_york_city_witness :
  address (parse_key_data (u "at B R O O K LY N, N E W Y O R C I T Y."))
  = Some (u "Brooklyn, New York City").
Proof.
  apply (address_new_york_city
           (u "at B R O O K LY N, N E W Y O R C I T Y.")
           (u "at ") (u "BROOKLYN") (u ",") (u " ") (u "NEWYORCITY") (u ".")).
  - vm_compute. reflexivity.
  - repeat constructor.
  - right. reflexivity.
  - repeat constructor.
  - repeat constructor.
  - vm_compute. intuition discriminate.
  - intros i Hi. destruct i as [|[|[|i]]];
      [vm_compute; reflexivity.. | simpl in Hi; lia].
Defined.

(** C9, as the specification states it, fails: U+0130 is accepted for the
    letter I and is its own upper case, so that the variant is neither
    ["NEWYORCITY"] nor ["NEWYOR"] and the fallback branch gives the address. *)
Lemma address_fallback_reached :
  let s := u "BROOKLYN NEWYORC" ++ [Char.CAPITAL_I_DOT] ++ u "TY" in
  address (parse_key_data s)
  = Some (u "Brooklyn, Newyorci" ++ [Char.COMBINING_DOT] ++ u "ty")
  /\ address (parse_key_data s) <> None
  /\ address (parse_key_data s) <> Some BROOKLYN_NEW_YORK_CITY
  /\ address (parse_key_data s) <> Some BROOKLYN_NEW_YORK.
Proof. vm_compute. repeat split; discriminate. Qed.

(** C9, amended: whenever the Field Extractor returns a non-null address
    and the city variant that was matched does not hold the character
    U+0130, the upper-cased variant is ["NEWYORCITY"] or ["NEWYOR"], and the
    address is ["Brooklyn, New York City"] or ["Brooklyn, New York"]; the
    address is null when the pattern has no match. *)
Theorem address_variants (s : str) :
  match search address_pattern (remove_extra_spaces_in_uppercase s) with
  | Some m =>
      ~ In Char.CAPITAL_I_DOT (group m 2) ->
      (PyStr.upper (group m 2) = u "NEWYORCITY"
       /\ address (parse_key_data s) = Some BROOKLYN_NEW_YORK_CITY)
      \/ (PyStr.upper (group m 2) = u "NEWYOR"
          /\ address (parse_key_data s) = Some BROOKLYN_NEW_YORK)
  | None => address (parse_key_data s) = None
  end.
Proof.
  unfold parse_key_data. cbn [address].
  set (t := remove_extra_spaces_in_uppercase s).
  destruct (search address_pattern t) as [m|] eqn:E; [|reflexivity].
  apply search_from_some in E. destruct E as [i [rest [_ [_ [Hm _]]]]].
  rewrite match_at_address in Hm.
  destruct (address_at (skipn i t)) as [[[b c] rest']|] eqn:Ea; [|discriminate].
  injection Hm as <- _. cbn [group caps lookup Nat.eqb].
  apply address_at_sound in Ea. destruct Ea as [Hb [Hc _]].
  intros Hdot. rewrite (title_brooklyn b Hb).
  destruct Hc as [Hc|Hc].
  - left. rewrite (upper_newyorcity c Hc Hdot). split; reflexivity.
  - right. rewrite (upper_newyor c Hc Hdot). split; reflexivity.
Qed.

(** C9 on a text with U+0130 outside the address. *)
Lemma address_variants_witness :
  ~ In Char.CAPITAL_I_DOT (u "NEWYORCITY")
  /\ address (parse_key_data
                ([Char.CAPITAL_I_DOT] ++ u "stanbul; BROOKLYN NEWYORCITY"))
     = Some BROOKLYN_NEW_YORK_CITY.
Proof.
  assert (H : ~ In Char.CAPITAL_I_DOT (u "NEWYORCITY"))
    by (vm_compute; intuition discriminate).
  split; [exact H|].
  pose proof (address_variants
                ([Char.CAPITAL_I_DOT] ++ u "stanbul; BROOKLYN NEWYORCITY"))
    as W.
  vm_compute in W. destruct (W H) as [[_ W']|[W' _]]; [|discriminate W'].
  vm_compute. exact W'.
Defined.

(** ** The property name *)

(** C2, as the specification states it, fails on its own example: the
    three spaces of ["280   Richards"] are kept. *)
Lemma property_name_keeps_spaces :
  property_name (parse_key_data (u "280   Richards"))
  = Some (u "280   Richards")
  /\ property_name (parse_key_data (u "280   Richards"))
     <> Some (u "280 Richards").
Proof. split; vm_compute; congruence. Qed.

(** C2, amended: the property name is non-null exactly when the
    normalized text holds the digits 280, one or more white-space
    characters and RICHARDS in some letter case; it is then ["280"], the
    white space of the leftmost occurrence as it stands, and the word in
    title case, which is ["Richards"] when the word is ASCII. *)
Theorem property_name_leftmost (s : str) :
  let t := remove_extra_spaces_in_uppercase s in
  match property_name (parse_key_data s) with
  | Some p =>
      exists pre w r post,
        prop_name_occurs t pre w r post
        /\ (forall pre' w' r' post',
              prop_name_occurs t pre' w' r' post' -> length pre <= length pre')
        /\ p = u "280" ++ w ++ PyStr.title r
        /\ (Forall is_ascii r -> p = u "280" ++ w ++ u "Richards")
  | None => forall pre w r post, ~ prop_name_occurs t pre w r post
  end.
Proof.
  intros t. unfold parse_key_data. cbn [property_name]. fold t.
  destruct (search prop_name_pattern t) as [m|] eqn:E.
  - apply search_from_some in E.
    destruct E as [i [rest [Hi [_ [Hm Hleft]]]]].
    rewrite match_at_prop_name in Hm.
    destruct (prop_name_at (skipn i t)) as [[x rest']|] eqn:Ea; [|discriminate].
    injection Hm as <- <-. cbn [group caps lookup Nat.eqb].
    apply prop_name_at_sound in Ea.
    destruct Ea as [w [r [Hskip [-> [Hne [Hw Hr]]]]]].
    exists (firstn i t), w, r, rest'.
    assert (Hlen : length (firstn i t) = i) by (rewrite length_firstn; lia).
    split; [|split; [|split]].
    + split; [|auto]. rewrite <- (firstn_skipn i t) at 1. rewrite Hskip.
      now rewrite <- !app_assoc.
    + intros pre' w' r' post' Hocc. rewrite Hlen.
      destruct (Nat.le_gt_cases i (length pre')) as [|Hlt]; [assumption|].
      exfalso. apply (prop_name_occurs_run _ _ _ _ _ Hocc). now apply Hleft.
    + now rewrite strip_prop_name, title_prop_name.
    + intros Ha. rewrite strip_prop_name, title_prop_name by assumption.
      now rewrite title_richards.
  - intros pre w r post Hocc.
    apply (prop_name_occurs_run _ _ _ _ _ Hocc).
    apply (search_from_none _ _ _ E).
    destruct Hocc as [-> _]. rewrite length_app. lia.
Qed.

(** ** Square footage *)

(** C3, as the specification states it, fails: a text that contains
    ["312,000 square feet"] may give another number, since the digits and
    commas before the phrase belong to the match, and so may a text that
    contains ["312K"]. *)
Lemma sqft_of_longer_number :
  total_rentable_square_footage (parse_key_data (u "1,312,000 square feet"))
  = Some 1312000%Z
  /\ total_rentable_square_footage (parse_key_data (u "1,312,000 square feet"))
     <> Some 312000%Z
  /\ total_rentable_square_footage (parse_key_data (u "5312K"))
     = Some 5312000%Z.
Proof. repeat split; vm_compute; congruence. Qed.

(** C3, amended: when no match of the square-feet pattern starts before
    ["312,000 square feet"] in the normalized text, the field is 312000; when
    the square-feet pattern has no match in the normalized text and no match
    of the K pattern starts before ["312K"], the field is 312000; when neither
    pattern matches the normalized text the field is null. *)
Theorem sqft_resolution :
  (forall pre post,
     (forall i, i < length (remove_extra_spaces_in_uppercase pre) ->
        match_at sqft_pattern i
          (skipn i (remove_extra_spaces_in_uppercase
                      (pre ++ u "312,000 square feet" ++ post))) = None) ->
     total_rentable_square_footage
       (parse_key_data (pre ++ u "312,000 square feet" ++ post))
     = Some 312000%Z)
  /\ (forall pre post,
        search sqft_pattern
          (remove_extra_spaces_in_uppercase (pre ++ u "312K" ++ post)) = None ->
        (forall i, i < length (remove_extra_spaces_in_uppercase pre) ->
           match_at k_pattern i
             (skipn i (remove_extra_spaces_in_uppercase
                         (pre ++ u "312K" ++ post))) = None) ->
        total_rentable_square_footage (parse_key_data (pre ++ u "312K" ++ post))
        = Some 312000%Z)
  /\ (forall s,
        search sqft_pattern (remove_extra_spaces_in_uppercase s) = None ->
        search k_pattern (remove_extra_spaces_in_uppercase s) = None ->
        total_rentable_square_footage (parse_key_data s) = None).
Proof.
  split; [|split].
  - intros pre post Hleft. unfold parse_key_data.
    cbn [total_rentable_square_footage].
    assert (Hc : remove_extra_spaces_in_uppercase
                   (pre ++ u "312,000 square feet" ++ post)
                 = remove_extra_spaces_in_uppercase pre
                     ++ u "312,000 square feet"
                     ++ remove_extra_spaces_in_uppercase post).
    { change (u "312,000 square feet")
        with (51 :: [49; 50; 44; 48; 48; 48; 32; 115; 113; 117; 97; 114; 101;
                     32; 102; 101; 101; 116])%N.
      apply normalizer_around; [reflexivity|repeat constructor; discriminate]. }
    rewrite Hc in *. unfold search. rewrite search_from_skip.
    2:{ intros i Hi. apply (match_at_none sqft_pattern i). now apply Hleft. }
    erewrite search_from_here
      by (rewrite match_at_sqft; apply f_equal; reflexivity).
    reflexivity.
  - intros pre post Hsf Hleft. unfold parse_key_data.
    cbn [total_rentable_square_footage]. rewrite Hsf.
    rewrite normalizer_around_k in *. unfold search.
    rewrite search_from_skip.
    2:{ intros i Hi. apply (match_at_none k_pattern i). now apply Hleft. }
    erewrite search_from_here
      by (rewrite match_at_k; apply f_equal; reflexivity).
    reflexivity.
  - intros s Hsf Hk. unfold parse_key_data.
    cbn [total_rentable_square_footage]. now rewrite Hsf, Hk.
Qed.

(** C3 on three texts; digits and a comma stand before the phrase in the
    first two. *)
Lemma sqft_resolution_witness :
  total_rentable_square_footage
    (parse_key_data (u "280 RICHARDS, 312,000 square feet in all"))
  = Some 312000%Z
  /\ total_rentable_square_footage
       (parse_key_data (u "280 RICHARDS, about 312K in all"))
     = Some 312000%Z
  /\ total_rentable_square_footage (parse_key_data (u "no area")) = None.
Proof.
  destruct sqft_resolution as [Ha [Hb Hc]].
  split; [|split].
  - apply (Ha (u "280 RICHARDS, ") (u " in all")).
    intros i Hi. assert (Hi' : i < 14) by exact Hi.
    do 14 (destruct i as [|i]; [vm_compute; reflexivity|]). lia.
  - apply (Hb (u "280 RICHARDS, about ") (u " in all")).
    + vm_compute. reflexivity.
    + intros i Hi. assert (Hi' : i < 20) by exact Hi.
      do 20 (destruct i as [|i]; [vm_compute; reflexivity|]). lia.
  - apply (Hc (u "no area")); vm_compute; reflexivity.
Defined.

(** * Further properties of [app.py] *)

(** ** [remove_extra_spaces_in_uppercase] *)

Section ScanMore.

Import Spec.

Variable del : N -> bool.

Local Abbreviation keep := (filter (fun c => negb (del c))).

Lemma keep_length w : length (keep w) <= length w.
Proof.
  induction w as [|c w IH]; simpl; [lia|]. destruct (del c); simpl; lia.
Qed.

Lemma scan_length s : forall st,
  length (scan del st s) <= length (pending st) + length s.
Proof.
  induction s as [|c s IH]; intros st; cbn [scan length].
  - lia.
  - destruct (Char.is_space c).
    + destruct st as [b|]; cbn [pending length].
      * specialize (IH (Some (b ++ [c]))). cbn [pending] in IH.
        rewrite length_app in IH. simpl in IH. lia.
      * specialize (IH None). cbn [pending length] in IH. lia.
    + destruct (Char.is_upper_az c).
      * rewrite length_app. cbn [length].
        pose proof (keep_length (pending st)).
        specialize (IH (Some [])). cbn [pending length] in IH. lia.
      * rewrite length_app. cbn [length].
        specialize (IH None). cbn [pending length] in IH. lia.
Qed.

(** Up to an upper-case letter the pass writes no more than it reads, and
    it goes on after the letter as after any upper-case letter. *)
Lemma scan_prefix_upper pre : forall st,
  exists X, length X <= length (pending st) + length pre
    /\ forall a rest, Char.is_upper_az a = true ->
         scan del st (pre ++ a :: rest) = X ++ a :: scan del (Some []) rest.
Proof.
  induction pre as [|d pre IH]; intros st.
  - exists (keep (pending st)). split.
    + pose proof (keep_length (pending st)). simpl. lia.
    + intros a rest Ha. cbn [app scan].
      now rewrite (upper_not_space a Ha), Ha.
  - cbn [app scan length]. destruct (Char.is_space d).
    + destruct st as [b|].
      * destruct (IH (Some (b ++ [d]))) as [X [HX H]]. exists X. split.
        -- cbn [pending] in *. rewrite length_app in HX. simpl in HX. lia.
        -- exact H.
      * destruct (IH None) as [X [HX H]]. exists (d :: X). split.
        -- cbn [pending length] in *. lia.
        -- intros a rest Ha. cbn [app]. now rewrite H.
    + destruct (Char.is_upper_az d).
      * destruct (IH (Some [])) as [X [HX H]].
        exists (keep (pending st) ++ d :: X). split.
        -- rewrite length_app. cbn [pending length] in *.
           pose proof (keep_length (pending st)). lia.
        -- intros a rest Ha. rewrite H by assumption.
           now rewrite <- app_assoc.
      * destruct (IH None) as [X [HX H]].
        exists (pending st ++ d :: X). split.
        -- rewrite length_app. cbn [pending length] in *. lia.
        -- intros a rest Ha. rewrite H by assumption.
           now rewrite <- app_assoc.
Qed.

Lemma keep_all w : length (keep w) = length w -> Forall (fun c => del c = false) w.
Proof.
  induction w as [|c w IH]; cbn [filter]; intros H; [constructor|].
  destruct (del c) eqn:E; cbn [negb length] in H.
  - pose proof (keep_length w). lia.
  - constructor; [assumption|]. apply IH. lia.
Qed.

Hypothesis del_blank : forall c, del c = true -> is_blank c = true.

Lemma keep_not_blank w : filter not_blank (keep w) = filter not_blank w.
Proof.
  induction w as [|c w IH]; cbn [filter]; [reflexivity|].
  destruct (del c) eqn:E; cbn [negb filter].
  - unfold not_blank at 2. rewrite (del_blank c E). exact IH.
  - now rewrite IH.
Qed.

Lemma scan_not_blank s : forall st,
  filter not_blank (scan del st s) = filter not_blank (pending st ++ s).
Proof.
  induction s as [|c s IH]; intros st; cbn [scan].
  - now rewrite app_nil_r.
  - destruct (Char.is_space c).
    + destruct st as [b|]; cbn [pending app].
      * rewrite IH. cbn [pending]. now rewrite <- app_assoc.
      * cbn [filter]. rewrite IH. reflexivity.
    + destruct (Char.is_upper_az c).
      * rewrite !filter_app, keep_not_blank. cbn [filter].
        rewrite IH. reflexivity.
      * rewrite !filter_app. cbn [filter]. rewrite IH. reflexivity.
Qed.

End ScanMore.

Lemma is_SPACE_blank c : is_SPACE c = true -> is_blank c = true.
Proof. unfold is_SPACE, is_blank. now intros ->. Qed.

Lemma newlines_to_spaces_length s :
  length (Spec.newlines_to_spaces s) = length s.
Proof. apply length_map. Qed.

Lemma newlines_to_spaces_not_blank s :
  filter not_blank (Spec.newlines_to_spaces s) = filter not_blank s.
Proof.
  unfold Spec.newlines_to_spaces.
  induction s as [|c s IH]; cbn [map filter]; [reflexivity|].
  destruct (N.eqb_spec c Char.LF) as [->|Hc].
  - exact IH.
  - now rewrite IH.
Qed.

(** X1: the normalizer never makes a text longer. *)
Theorem normalizer_not_longer (s : str) :
  length (remove_extra_spaces_in_uppercase s) <= length s.
Proof.
  rewrite normalizer_scan.
  pose proof (scan_length is_SPACE (Spec.newlines_to_spaces s) None) as H.
  cbn [Spec.pending length] in H. now rewrite newlines_to_spaces_length in H.
Qed.

(** X2: the normalizer changes spaces and newlines only: the characters
    that are neither come out as they went in, in the same order, and no
    newline is left. *)
Theorem normalizer_touches_blanks_only (s : str) :
  filter not_blank (remove_extra_spaces_in_uppercase s) = filter not_blank s
  /\ ~ In Char.LF (remove_extra_spaces_in_uppercase s).
Proof.
  split; [|apply normalizer_no_LF].
  rewrite normalizer_scan, (scan_not_blank is_SPACE is_SPACE_blank).
  cbn [Spec.pending app]. apply newlines_to_spaces_not_blank.
Qed.

Lemma normalizer_fixed s :
  let t := remove_extra_spaces_in_uppercase s in
  Spec.scan is_SPACE None t = t.
Proof.
  intros t. subst t.
  pose proof (normalizer_idempotent s) as H.
  rewrite (normalizer_scan (remove_extra_spaces_in_uppercase s)) in H.
  now rewrite newlines_to_spaces_id in H by apply normalizer_no_LF.
Qed.

(** X3: in the normalized text no space is left between two upper-case
    letters that only white space separates. *)
Theorem normalizer_leaves_no_spaced_pair (s pre w post : str) (a b : N) :
  remove_extra_spaces_in_uppercase s = pre ++ a :: w ++ b :: post ->
  Char.is_upper_az a = true -> Char.is_upper_az b = true -> spaces w ->
  ~ In Char.SPACE w.
Proof.
  intros Ht Ha Hb Hw Hin.
  pose proof (normalizer_fixed s) as Hfix. cbn zeta in Hfix.
  rewrite Ht in Hfix.
  destruct (scan_prefix_upper is_SPACE pre None) as [X [HX H]].
  rewrite (H a _ Ha) in Hfix.
  rewrite scan_some_spaces in Hfix by assumption.
  cbn [app Spec.scan Spec.pending] in Hfix.
  rewrite (upper_not_space b Hb), Hb in Hfix.
  apply (f_equal (@length N)) in Hfix.
  rewrite !length_app in Hfix. cbn [length] in Hfix.
  rewrite !length_app in Hfix. cbn [length Spec.pending] in *.
  pose proof (scan_length is_SPACE post (Some [])) as Hp.
  cbn [Spec.pending length] in Hp.
  pose proof (keep_length is_SPACE w) as Hk.
  assert (Hall : Forall (fun c => is_SPACE c = false) w).
  { apply keep_all. lia. }
  rewrite Forall_forall in Hall. specialize (Hall _ Hin). discriminate.
Qed.

(** X3 on ["x  A B\tC"], which becomes ["x  AB\tC"]. *)
Lemma normalizer_leaves_no_spaced_pair_witness :
  remove_extra_spaces_in_uppercase (u "x  A B" ++ [9%N] ++ u "C")
  = u "x  A" ++ 66%N :: [9%N] ++ 67%N :: []
  /\ ~ In Char.SPACE [9%N].
Proof.
  split; [vm_compute; reflexivity|].
  apply (normalizer_leaves_no_spaced_pair
           (u "x  A B" ++ [9%N] ++ u "C") (u "x  A") [9%N] [] 66 67).
  - vm_compute. reflexivity.
  - reflexivity.
  - reflexivity.
  - repeat constructor.
Defined.

Lemma newlines_to_spaces_no_upper s :
  Forall (fun c => Char.is_upper_az c = false) s ->
  Forall (fun c => Char.is_upper_az c = false) (Spec.newlines_to_spaces s).
Proof.
  unfold Spec.newlines_to_spaces. induction 1 as [|c s Hc _ IH];
    cbn [map]; constructor; [|exact IH].
  destruct (N.eqb c Char.LF); [reflexivity|assumption].
Qed.

(** X4: on a text without upper-case ASCII letters the normalizer only
    replaces the newlines by spaces. *)
Theorem normalizer_without_upper (s : str) :
  Forall (fun c => Char.is_upper_az c = false) s ->
  remove_extra_spaces_in_uppercase s = Spec.newlines_to_spaces s.
Proof.
  intros H. rewrite normalizer_scan.
  rewrite <- (app_nil_r (Spec.newlines_to_spaces s)) at 1.
  rewrite scan_no_upper by now apply newlines_to_spaces_no_upper.
  cbn [Spec.scan Spec.pending]. apply app_nil_r.
Qed.

(** X4 on a text of two lines. *)
Lemma normalizer_without_upper_witness :
  remove_extra_spaces_in_uppercase (u "total  area:" ++ [Char.LF] ++ u "312 k")
  = u "total  area: 312 k".
Proof.
  rewrite normalizer_without_upper.
  - reflexivity.
  - repeat constructor.
Defined.

(** X5: a character that is neither white space nor an upper-case ASCII
    letter splits the work of the normalizer: the text before it and the
    text after it are normalized apart. *)
Theorem normalizer_splits_at (x y : str) (c : N) :
  Char.is_space c = false -> Char.is_upper_az c = false ->
  remove_extra_spaces_in_uppercase (x ++ c :: y) =
  remove_extra_spaces_in_uppercase x ++ c :: remove_extra_spaces_in_uppercase y.
Proof.
  intros Hs Hu. rewrite !normalizer_scan, newlines_to_spaces_app.
  change (Spec.newlines_to_spaces (c :: y))
    with ((if N.eqb c Char.LF then Char.SPACE else c)
            :: Spec.newlines_to_spaces y).
  destruct (N.eqb_spec c Char.LF) as [E|_];
    [rewrite E in Hs; discriminate|].
  apply scan_barrier; assumption.
Qed.

(** X5 at a comma. *)
Lemma normalizer_splits_at_witness :
  remove_extra_spaces_in_uppercase (u "B R O O K LY N" ++ 44%N :: u " N Y")
  = u "BROOKLYN" ++ 44%N :: u " NY".
Proof.
  rewrite normalizer_splits_at by reflexivity. reflexivity.
Defined.

Lemma keep_repeat_space k :
  filter (fun c => negb (is_SPACE c)) (repeat Char.SPACE k) = [].
Proof. induction k as [|k IH]; [reflexivity|exact IH]. Qed.

Lemma repeat_spaces k : spaces (repeat Char.SPACE k).
Proof. induction k; constructor; [reflexivity|assumption]. Qed.

Lemma scan_spaced_tail k ls :
  Forall (fun c => Char.is_upper_az c = true) ls ->
  Spec.scan is_SPACE (Some [])
    (flat_map (fun c => repeat Char.SPACE k ++ [c]) ls) = ls.
Proof.
  induction 1 as [|c ls Hc _ IH]; [reflexivity|].
  cbn [flat_map]. rewrite <- app_assoc.
  rewrite scan_some_spaces by apply repeat_spaces.
  cbn [app Spec.scan Spec.pending].
  rewrite (upper_not_space c Hc), Hc, keep_repeat_space, IH. reflexivity.
Qed.

Lemma spaced_no_LF k letters :
  Forall (fun c => Char.is_upper_az c = true) letters ->
  ~ In Char.LF (spaced k letters).
Proof.
  intros H Hin. destruct H as [|l ls Hl Hls]; [contradiction|].
  cbn [spaced] in Hin. destruct Hin as [E|Hin].
  { rewrite E in Hl. discriminate. }
  apply in_flat_map in Hin. destruct Hin as [c [Hc Hin]].
  apply in_app_or in Hin. destruct Hin as [Hin|[E|[]]].
  - apply repeat_spec in Hin. discriminate.
  - rewrite Forall_forall in Hls. specialize (Hls _ Hc).
    rewrite E in Hls. discriminate.
Qed.

(** X6: a word of upper-case ASCII letters written with [k] spaces between
    its letters is collapsed to the word. *)
Theorem normalizer_collapses_spaced_word (k : nat) (letters : str) :
  Forall (fun c => Char.is_upper_az c = true) letters ->
  remove_extra_spaces_in_uppercase (spaced k letters) = letters.
Proof.
  intros H. rewrite normalizer_scan.
  rewrite newlines_to_spaces_id by now apply spaced_no_LF.
  destruct H as [|l ls Hl Hls]; [reflexivity|].
  cbn [spaced Spec.scan Spec.pending filter app].
  rewrite (upper_not_space l Hl), Hl. now rewrite scan_spaced_tail.
Qed.

(** X6 on the letters of BROOKLYN two spaces apart. *)
Lemma normalizer_collapses_spaced_word_witness :
  remove_extra_spaces_in_uppercase (u "B  R  O  O  K  L  Y  N") = u "BROOKLYN".
Proof.
  apply (normalizer_collapses_spaced_word 2 (u "BROOKLYN")).
  repeat constructor.
Defined.

Lemma newlines_to_spaces_twice s :
  Spec.newlines_to_spaces (Spec.newlines_to_spaces s) = Spec.newlines_to_spaces s.
Proof.
  apply newlines_to_spaces_id. apply newlines_to_spaces_no_LF.
Qed.

(** X7: a newline of the input counts as a space: replacing the newlines of
    a text by spaces changes neither the normalized text nor the fields. *)
Theorem newline_is_space (s : str) :
  remove_extra_spaces_in_uppercase (Str.replace_char Char.LF [Char.SPACE] s)
  = remove_extra_spaces_in_uppercase s
  /\ parse_key_data (Str.replace_char Char.LF [Char.SPACE] s) = parse_key_data s.
Proof.
  assert (H : remove_extra_spaces_in_uppercase
                (Str.replace_char Char.LF [Char.SPACE] s)
              = remove_extra_spaces_in_uppercase s).
  { rewrite replace_char_map. fold (Spec.newlines_to_spaces s).
    rewrite !normalizer_scan. now rewrite newlines_to_spaces_twice. }
  split; [exact H|]. unfold parse_key_data. now rewrite H.
Qed.

(** ** [extract_text_from_pdf] *)

Lemma extract_pages_fails ps : forall text e,
  extract_pages text ps = inl e -> existsb page_raises ps = true.
Proof.
  induction ps as [|p ps IH]; intros text e; cbn [extract_pages];
    [discriminate|].
  destruct p as [[[|c x]|]|m]; cbn [existsb page_raises orb]; eauto.
Qed.

Lemma extract_pages_ok ps : forall text text',
  extract_pages text ps = inr text' -> existsb page_raises ps = false.
Proof.
  induction ps as [|p ps IH]; intros text text'; cbn [extract_pages];
    [reflexivity|].
  destruct p as [[[|c x]|]|m]; cbn [existsb page_raises orb]; eauto.
  discriminate.
Qed.

(** X8: the extraction fails exactly when the reader or a page raises, and
    the message of its [ValueError] starts with
    ["Error processing PDF file: "]. *)
Theorem extract_text_fails_iff (f : pdf) :
  match extract_text_from_pdf f with
  | inl e => pdf_raises f = true /\ exists m, e = ERROR_PREFIX ++ m
  | inr _ => pdf_raises f = false
  end.
Proof.
  destruct f as [ps|m]; cbn [extract_text_from_pdf pdf_raises].
  - destruct (extract_pages [] ps) as [e|text] eqn:E.
    + split; [now apply extract_pages_fails in E|]. now exists e.
    + now apply extract_pages_ok in E.
  - split; [reflexivity|]. now exists m.
Qed.

(** X9: the first page that raises decides the error: the pages before it
    leave no text behind and the pages after it are not read. *)
Theorem extract_text_first_failure
  (ts : list (option str)) (m : str) (rest : list page) :
  extract_text_from_pdf (Pages (map PageText ts ++ PageFails m :: rest))
  = inl (ERROR_PREFIX ++ m).
Proof.
  cbn [extract_text_from_pdf].
  assert (H : forall text,
            extract_pages text (map PageText ts ++ PageFails m :: rest) = inl m).
  { induction ts as [|t ts IH]; intros text; cbn [map app extract_pages].
    - reflexivity.
    - destruct t as [[|c x]|]; apply IH. }
  now rewrite H.
Qed.

Lemma segment_nil t : segment t = [] <-> text_of t = [].
Proof.
  unfold segment. destruct (text_of t) as [|c x]; split; try reflexivity.
  - discriminate.
  - discriminate.
Qed.

Lemma concat_segments_nil ts :
  concat (map segment ts) = [] <-> Forall (fun t => text_of t = []) ts.
Proof.
  induction ts as [|t ts IH]; cbn [map concat].
  - split; [constructor|reflexivity].
  - split.
    + intros H. apply app_eq_nil in H. destruct H as [H1 H2].
      constructor; [now apply segment_nil|now apply IH].
    + intros H. inversion H as [|? ? H1 H2]; subst.
      apply segment_nil in H1. apply IH in H2. now rewrite H1, H2.
Qed.

Lemma concat_segments_end ts :
  concat (map segment ts) = [] \/
  exists x, concat (map segment ts) = x ++ [Char.LF].
Proof.
  induction ts as [|t ts IH]; cbn [map concat]; [now left|].
  destruct IH as [IH|[x IH]]; rewrite IH.
  - rewrite app_nil_r. unfold segment.
    destruct (text_of t) as [|c y]; [now left|]. right. now exists (c :: y).
  - right. exists (segment t ++ x). now rewrite app_assoc.
Qed.

(** X10: the text of pages that do not raise is empty exactly when no page
    has text; otherwise it ends with a line break. *)
Theorem extract_text_empty_or_ends_with_newline (ts : list (option str)) :
  exists text,
    extract_text_from_pdf (Pages (map PageText ts)) = inr text
    /\ (text = [] <-> Forall (fun t => text_of t = []) ts)
    /\ (text = [] \/ exists x, text = x ++ [Char.LF]).
Proof.
  exists (concat (map segment ts)). cbn [extract_text_from_pdf].
  rewrite extract_pages_segments. cbn [app].
  split; [reflexivity|]. split.
  - apply concat_segments_nil.
  - apply concat_segments_end.
Qed.

(** ** [parse_pdf_api] *)

Lemma filename_eqb name : Str.eqb name [] = true <-> name = [].
Proof.
  unfold Str.eqb. destruct (list_eq_dec N.eq_dec name []); split;
    congruence.
Qed.

(** X11: the handler answers 400 exactly when the request has no file part
    or its file name is empty, whatever the file holds; it then names the
    one or the other. *)
Theorem handler_400_iff (req : request) :
  (snd (parse_pdf_api req) = 400 <->
   files req = None \/ exists f, files req = Some f /\ filename f = [])
  /\ (files req = None ->
      parse_pdf_api req = (Error (u "No file part in the request."), 400))
  /\ (forall f, files req = Some f -> filename f = [] ->
      parse_pdf_api req = (Error (u "No selected file."), 400)).
Proof.
  unfold parse_pdf_api. destruct (files req) as [f|].
  - destruct (Str.eqb (filename f) []) eqn:E.
    + apply filename_eqb in E. split; [|split].
      * split; [|reflexivity]. intros _. right. now exists f.
      * discriminate.
      * reflexivity.
    + assert (Hne : filename f <> []).
      { intros H. apply filename_eqb in H. congruence. }
      split; [|split].
      * split.
        -- destruct (extract_text_from_pdf (content f)) as [e|text];
             [discriminate|]. unfold jsonify.
           destruct (none_in_values (parse_key_data text));
             destruct (serializes (parse_key_data text)); discriminate.
        -- intros [H|[f' [[= <-] H]]]; [discriminate|contradiction].
      * discriminate.
      * intros f' [= <-] H. contradiction.
  - split; [|split].
    + split; [|reflexivity]. intros _. now left.
    + reflexivity.
    + discriminate.
Qed.

(** X12: for a file with a name the handler answers 500 exactly when the
    reader or a page raises, or the square footage read from the extracted
    text has more than 4300 digits, so that [jsonify] raises.  The body is the
    message of the extraction, which starts with
    ["Error processing PDF file: "], in the first case and the message of the
    conversion error in the second. *)
Theorem handler_500_iff (f : upload) :
  filename f <> [] ->
  let resp := parse_pdf_api (Request (Some f)) in
  (snd resp = 500 <->
   pdf_raises (content f) = true
   \/ exists text, extract_text_from_pdf (content f) = inr text
                   /\ serializes (parse_key_data text) = false)
  /\ (pdf_raises (content f) = true ->
      exists m, resp = (Error (ERROR_PREFIX ++ m), 500))
  /\ (forall text, extract_text_from_pdf (content f) = inr text ->
      serializes (parse_key_data text) = false ->
      resp = (Error INT_TO_STR_ERROR, 500)).
Proof.
  intros Hne resp. subst resp.
  destruct (extract_text_from_pdf (content f)) as [e|text] eqn:Ex.
  - assert (Hr : pdf_raises (content f) = true
                 /\ exists m, e = ERROR_PREFIX ++ m).
    { destruct (content f) as [ps|m];
        cbn [extract_text_from_pdf pdf_raises] in *.
      - destruct (extract_pages [] ps) as [e'|text] eqn:Ep; [|discriminate].
        injection Ex as <-. split; [now apply extract_pages_fails in Ep|].
        now exists e'.
      - injection Ex as <-. split; [reflexivity|]. now exists m. }
    destruct Hr as [Hr [m ->]].
    assert (Hresp : parse_pdf_api (Request (Some f))
                    = (Error (ERROR_PREFIX ++ m), 500)).
    { unfold parse_pdf_api. cbn [files].
      destruct (Str.eqb (filename f) []) eqn:E;
        [apply filename_eqb in E; contradiction|].
      now rewrite Ex. }
    rewrite Hresp. split; [|split].
    + cbn [snd]. split; [now left|reflexivity].
    + intros _. now exists m.
    + discriminate.
  - assert (Hr : pdf_raises (content f) = false).
    { destruct (content f) as [ps|m];
        cbn [extract_text_from_pdf pdf_raises] in *; [|discriminate].
      destruct (extract_pages [] ps) as [e'|text'] eqn:Ep; [discriminate|].
      now apply extract_pages_ok in Ep. }
    rewrite (parse_pdf_api_of_text f text Hne Ex). cbv zeta.
    destruct (serializes (parse_key_data text)) eqn:Es.
    + split; [|split].
      * split.
        -- destruct (none_in_values (parse_key_data text)); discriminate.
        -- intros [H|[text' [[= <-] H]]]; congruence.
      * rewrite Hr. discriminate.
      * intros text' [= <-] H. congruence.
    + split; [|split].
      * cbn [snd]. split; [|reflexivity]. intros _. right. now exists text.
      * rewrite Hr. discriminate.
      * reflexivity.
Qed.

(** X12 on a file whose second page raises. *)
Lemma handler_500_iff_witness :
  parse_pdf_api
    (Request (Some (Upload (u "a.pdf")
       (Pages [PageText (Some (u "280 RICHARDS")); PageFails (u "bad page")]))))
  = (Error (u "Error processing PDF file: bad page"), 500).
Proof.
  destruct (handler_500_iff
              (Upload (u "a.pdf")
                 (Pages [PageText (Some (u "280 RICHARDS"));
                         PageFails (u "bad page")]))
              ltac:(discriminate)) as [_ [H _]].
  destruct (H eq_refl) as [m Hm]. rewrite Hm. vm_compute in Hm.
  injection Hm as Hm. vm_compute. now rewrite Hm.
Defined.

(** X13: body and status agree on every request: a record comes with 200,
    has no null field and a square footage that [jsonify] can write; a
    partial record comes with 422, has a null field and a square footage
    that [jsonify] can write; and an error alone comes with 400 or 500. *)
Theorem handler_body_and_status (req : request) :
  match parse_pdf_api req with
  | (Data k, st) => st = 200 /\ all_fields k /\ serializes k = true
  | (ErrorExtracted _ k, st) =>
      st = 422 /\ some_field_null k /\ serializes k = true
  | (Error _, st) => st = 400 \/ st = 500
  end.
Proof.
  unfold parse_pdf_api. destruct (files req) as [f|]; [|now left].
  destruct (Str.eqb (filename f) []); [now left|].
  destruct (extract_text_from_pdf (content f)) as [e|text]; [now right|].
  cbv zeta. unfold jsonify.
  destruct (none_in_values (parse_key_data text)) eqn:E;
    destruct (serializes (parse_key_data text)) eqn:Es.
  - split; [reflexivity|]. split; [now apply none_in_values_true|assumption].
  - now right.
  - split; [reflexivity|]. split; [now apply none_in_values_false|assumption].
  - now right.
Qed.

(** X14: a PDF none of whose pages has text is answered with 422 and the
    record of three null fields. *)
Theorem handler_pdf_without_text (name : str) (ts : list (option str)) :
  name <> [] -> Forall (fun t => text_of t = []) ts ->
  parse_pdf_api (upload_of name ts)
  = (ErrorExtracted (u "Could not reliably extract all key information.")
       (KeyData None None None), 422).
Proof.
  intros Hne Hts. unfold upload_of, parse_pdf_api. cbn [files filename content].
  destruct (Str.eqb name []) eqn:E; [apply filename_eqb in E; contradiction|].
  cbn [extract_text_from_pdf]. rewrite extract_pages_segments. cbn [app].
  apply concat_segments_nil in Hts. rewrite Hts. reflexivity.
Qed.

(** X14 on a scan of three pages without text. *)
Lemma handler_pdf_without_text_witness :
  parse_pdf_api (upload_of (u "scan.pdf") [None; Some []; None])
  = (ErrorExtracted (u "Could not reliably extract all key information.")
       (KeyData None None None), 422).
Proof.
  apply handler_pdf_without_text.
  - discriminate.
  - repeat constructor.
Defined.

Lemma segments_filter ts :
  concat (map segment (filter has_text ts)) = concat (map segment ts).
Proof.
  induction ts as [|t ts IH]; cbn [filter map concat]; [reflexivity|].
  change (has_text t) with (match text_of t with [] => false | _ => true end).
  destruct (text_of t) as [|c x] eqn:E.
  - rewrite (proj2 (segment_nil t) E). exact IH.
  - cbn [map concat]. now rewrite IH.
Qed.

(** X15: the pages without text do not count: leaving them out of the
    document changes neither the extracted text nor the answer of the
    handler. *)
Theorem pages_without_text_do_not_count (name : str) (ts : list (option str)) :
  extract_text_from_pdf (Pages (map PageText (filter has_text ts)))
  = extract_text_from_pdf (Pages (map PageText ts))
  /\ parse_pdf_api (upload_of name (filter has_text ts))
     = parse_pdf_api (upload_of name ts).
Proof.
  assert (H : extract_text_from_pdf (Pages (map PageText (filter has_text ts)))
              = extract_text_from_pdf (Pages (map PageText ts))).
  { cbn [extract_text_from_pdf]. rewrite !extract_pages_segments.
    now rewrite segments_filter. }
  split; [exact H|].
  unfold upload_of, parse_pdf_api. cbn [files filename content].
  now rewrite H.
Qed.

(** ** The address of [parse_key_data] *)

Lemma ci_word_newyor_head c :
  ci_word (u "NEWYOR") c -> exists c0 c', c = c0 :: c' /\ word_char c0 = true.
Proof.
  intros H. change (u "NEWYOR") with (78 :: u "EWYOR")%N in H.
  inversion H as [|? c0 ? c' H0 _]; subst. exists c0, c'.
  split; [reflexivity|]. eapply ci_word_char; [|eassumption]. reflexivity.
Qed.

Lemma head_not_comma_newyor w c rest :
  spaces w -> ci_word (u "NEWYOR") c ->
  match w ++ c ++ rest with
  | c0 :: _ => N.eqb c0 Char.COMMA = false
  | [] => True
  end.
Proof.
  intros Hw Hc. destruct w as [|d w]; cbn [app].
  - destruct (ci_word_newyor_head c Hc) as [c0 [c' [-> H0]]]. cbn [app].
    now apply word_char_not_comma.
  - inversion Hw as [|? ? Hd _]; subst.
    destruct (N.eqb_spec d Char.COMMA) as [E|]; [|reflexivity].
    rewrite E in Hd. discriminate.
Qed.

Opaque firstn skipn.

Lemma city_at_newyor w c rest :
  spaces w -> ci_word (u "NEWYOR") c ->
  exists x r, city_at (w ++ c ++ rest) = Some (x, r)
    /\ (ci_prefix (u "CITY") rest = false -> x = c /\ r = rest).
Proof.
  intros Hw Hc. unfold city_at.
  destruct (ci_word_newyor_head c Hc) as [c0 [c' [Ec H0]]].
  assert (Hd : drop_while Char.is_space (w ++ c ++ rest) = c ++ rest).
  { rewrite Ec. cbn [app]. now apply drop_while_spaces_word. }
  assert (Hs6 : skipn 6 (c ++ rest) = rest) by exact (skipn_ci_word _ _ rest Hc).
  assert (Hf6 : firstn 6 (c ++ rest) = c) by exact (firstn_ci_word _ _ rest Hc).
  rewrite Hd, (ci_prefix_app _ _ _ Hc), Hs6, Hf6.
  destruct (ci_prefix (u "CITY") rest).
  - eexists _, _. split; [reflexivity|discriminate].
  - exists c, rest. split; [reflexivity|auto].
Qed.

Lemma address_at_of_city b comma w c rest x r :
  ci_word (u "BROOKLYN") b -> comma = [] \/ comma = [Char.COMMA] ->
  match w ++ c ++ rest with
  | c0 :: _ => N.eqb c0 Char.COMMA = false
  | [] => True
  end ->
  city_at (w ++ c ++ rest) = Some (x, r) ->
  address_at (b ++ comma ++ w ++ c ++ rest) = Some (b, x, r).
Proof.
  intros Hb Hcomma Hh Hcity. unfold address_at.
  assert (Hs : skipn 8 (b ++ comma ++ w ++ c ++ rest) = comma ++ w ++ c ++ rest)
    by exact (skipn_ci_word _ _ _ Hb).
  assert (Hf : firstn 8 (b ++ comma ++ w ++ c ++ rest) = b)
    by exact (firstn_ci_word _ _ _ Hb).
  rewrite (ci_prefix_app _ _ _ Hb), Hs, Hf.
  destruct Hcomma as [-> | ->]; cbn [app].
  - rewrite Hcity. destruct (w ++ c ++ rest) as [|c0 s1']; [reflexivity|].
    now rewrite Hh.
  - now rewrite N.eqb_refl, Hcity.
Qed.

Transparent firstn skipn.

Lemma address_occurs_run t pre b comma w c post :
  address_occurs t pre b comma w c post ->
  run address_pattern (skipn (length pre) t, []) <> [].
Proof.
  intros [-> [Hb [Hcomma [Hw Hc]]]] Hrun.
  apply (match_at_none address_pattern 0) in Hrun.
  rewrite skipn_app_exact, match_at_address in Hrun.
  destruct (city_at_newyor w c post Hw Hc) as [x [r [Hcity _]]].
  rewrite (address_at_of_city b comma w c post x r Hb Hcomma
             (head_not_comma_newyor w c post Hw Hc) Hcity) in Hrun.
  discriminate.
Qed.

Lemma ci_word_newyor_no_dot c :
  ci_word (u "NEWYOR") c -> ~ In Char.CAPITAL_I_DOT c.
Proof.
  intros Hc Hin.
  assert (H : Forall (fun x => x <> Char.CAPITAL_I_DOT /\ x <> Char.DOTLESS_I
                               /\ x <> Char.LONG_S) c).
  { apply (ci_word_plain (u "NEWYOR")); [assumption|].
    repeat constructor; discriminate. }
  rewrite Forall_forall in H. destruct (H _ Hin) as [H1 _]. congruence.
Qed.

(** X16: a non-null address always starts with ["Brooklyn, "], in whatever
    letter case the borough stands in the text. *)
Theorem address_starts_with_brooklyn (s a : str) :
  address (parse_key_data s) = Some a -> exists ny, a = u "Brooklyn, " ++ ny.
Proof.
  unfold parse_key_data. cbn [address].
  set (t := remove_extra_spaces_in_uppercase s).
  destruct (search address_pattern t) as [m|] eqn:E; [|discriminate].
  apply search_from_some in E. destruct E as [i [rest [_ [_ [Hm _]]]]].
  rewrite match_at_address in Hm.
  destruct (address_at (skipn i t)) as [[[b c] rest']|] eqn:Ea; [|discriminate].
  injection Hm as <- _. cbn [group caps lookup Nat.eqb].
  apply address_at_sound in Ea. destruct Ea as [Hb _].
  rewrite (title_brooklyn b Hb). intros [= <-].
  eexists. reflexivity.
Qed.

(** X16 on a text in lower case. *)
Lemma address_starts_with_brooklyn_witness :
  exists ny, u "Brooklyn, New York" = u "Brooklyn, " ++ ny.
Proof.
  apply (address_starts_with_brooklyn (u "in brooklyn newyor") _).
  vm_compute. reflexivity.
Defined.

(** X17: when the leftmost match of the address pattern in the normalized
    text is BROOKLYN, an optional comma, optional white space and NEWYOR,
    not followed by CITY, the address is ["Brooklyn, New York"]. *)
Theorem address_new_york (s pre b comma w c post : str) :
  address_occurs (remove_extra_spaces_in_uppercase s) pre b comma w c post ->
  ci_prefix (u "CITY") post = false ->
  (forall i, i < length pre ->
     match_at address_pattern i
       (skipn i (remove_extra_spaces_in_uppercase s)) = None) ->
  address (parse_key_data s) = Some BROOKLYN_NEW_YORK.
Proof.
  intros [Ht [Hb [Hcomma [Hw Hc]]]] Hcity Hleft.
  unfold parse_key_data. cbn [address]. rewrite Ht in *.
  unfold search. rewrite search_from_skip.
  2:{ intros i Hi. apply (match_at_none address_pattern i). now apply Hleft. }
  destruct (city_at_newyor w c post Hw Hc) as [x [r [Hx Hxr]]].
  destruct (Hxr Hcity) as [-> ->].
  erewrite search_from_here.
  2:{ rewrite match_at_address.
      rewrite (address_at_of_city b comma w c post c post Hb Hcomma
                 (head_not_comma_newyor w c post Hw Hc) Hx).
      reflexivity. }
  cbn [group caps lookup Nat.eqb].
  rewrite (title_brooklyn b Hb),
    (upper_newyor c Hc (ci_word_newyor_no_dot c Hc)).
  reflexivity.
Qed.

(** X17 on the upper-case text of the address, which the normalizer turns
    into ["BROOKLYN, NEWYORKCITY"]. *)
Lemma address_new_york_witness :
  address (parse_key_data (u "BROOKLYN, NEW YORK CITY"))
  = Some (u "Brooklyn, New York").
Proof.
  apply (address_new_york (u "BROOKLYN, NEW YORK CITY")
           [] (u "BROOKLYN") (u ",") (u " ") (u "NEWYOR") (u "KCITY")).
  - split; [vm_compute; reflexivity|]. split; [repeat constructor|].
    split; [now right|]. split; repeat constructor.
  - reflexivity.
  - intros i Hi. simpl in Hi. lia.
Defined.

(** X18: the address is null exactly when the normalized text nowhere
    holds BROOKLYN, an optional comma, optional white space and NEWYOR, the
    letters in some case. *)
Theorem address_null_iff (s : str) :
  address (parse_key_data s) = None <->
  forall pre b comma w c post,
    ~ address_occurs (remove_extra_spaces_in_uppercase s) pre b comma w c post.
Proof.
  unfold parse_key_data. cbn [address].
  set (t := remove_extra_spaces_in_uppercase s).
  destruct (search address_pattern t) as [m|] eqn:E.
  - split; [discriminate|]. intros Hno. exfalso.
    apply search_from_some in E. destruct E as [i [rest [Hi [_ [Hm _]]]]].
    rewrite match_at_address in Hm.
    destruct (address_at (skipn i t)) as [[[b c] rest']|] eqn:Ea;
      [|discriminate].
    apply address_at_sound in Ea.
    destruct Ea as [Hb [Hc [comma [w [Hskip [Hcomma Hw]]]]]].
    assert (Ht : t = firstn i t ++ b ++ comma ++ w ++ c ++ rest').
    { rewrite <- Hskip. symmetry. apply firstn_skipn. }
    destruct Hc as [Hc|Hc].
    + change (u "NEWYORCITY") with (u "NEWYOR" ++ u "CITY") in Hc.
      apply ci_word_app in Hc. destruct Hc as [c6 [c4 [-> [H6 _]]]].
      apply (Hno (firstn i t) b comma w c6 (c4 ++ rest')).
      split; [|auto]. now rewrite <- app_assoc in Ht.
    + apply (Hno (firstn i t) b comma w c rest'). split; auto.
  - split; [|reflexivity]. intros _ pre b comma w c post Hocc.
    apply (address_occurs_run _ _ _ _ _ _ _ Hocc).
    apply (search_from_none _ _ _ E).
    destruct Hocc as [-> _]. rewrite length_app. lia.
Qed.

(** ** The square footage of [parse_key_data] *)

Lemma space_not_digit_or_comma c :
  Char.is_space c = true -> digit_or_comma c = false.
Proof.
  intros H. destruct (digit_or_comma c) eqn:E; [|reflexivity].
  apply digit_or_comma_not_space in E. congruence.
Qed.

Lemma spaces_plain w :
  spaces w -> ~ In Char.LF w ->
  Forall (fun d => Char.is_upper_az d = false /\ d <> Char.LF) w.
Proof.
  intros Hw Hno. apply Forall_forall. intros c Hc. split.
  - unfold spaces in Hw. rewrite Forall_forall in Hw.
    now apply space_not_upper, Hw.
  - intros E. apply Hno. now rewrite <- E.
Qed.

(** X19: a number of digits and commas with no digit or comma before it,
    followed by white space (or none) and ["square feet"] or ["sf"], gives the
    integer read from the number without its commas. *)
Theorem sqft_of_number_and_unit (pre d w unit post : str) :
  Forall (fun c => digit_or_comma c = false) pre ->
  d <> [] -> Forall (fun c => digit_or_comma c = true) d ->
  spaces w -> ~ In Char.LF w ->
  unit = u "square feet" \/ unit = u "sf" ->
  total_rentable_square_footage
    (parse_key_data (pre ++ d ++ w ++ unit ++ post))
  = PyStr.int (Str.replace_char Char.COMMA [] d).
Proof.
  intros Hpre Hne Hd Hw Hno Hunit.
  destruct d as [|c d]; [congruence|]. inversion Hd as [|? ? Hc Hd']; subst.
  replace (pre ++ (c :: d) ++ w ++ unit ++ post)
    with (pre ++ (c :: d ++ w ++ unit) ++ post)
    by (cbn [app]; now rewrite <- !app_assoc).
  unfold parse_key_data. cbn [total_rentable_square_footage].
  rewrite (normalizer_around pre c (d ++ w ++ unit)).
  2:{ apply (digit_or_comma_plain c Hc). }
  2:{ constructor; [apply (digit_or_comma_plain c Hc)|].
      apply Forall_app. split.
      - eapply Forall_impl; [|exact Hd']. intros x Hx.
        apply (digit_or_comma_plain x Hx).
      - apply Forall_app. split; [now apply spaces_plain|].
        destruct Hunit as [-> | ->]; repeat constructor; discriminate. }
  unfold search.
  rewrite (search_skip_class sqft_pattern digit_or_comma);
    [|exact sqft_start|now apply normalizer_forall].
  set (post' := remove_extra_spaces_in_uppercase post).
  assert (Hh : match w ++ unit ++ post' with
               | c0 :: _ => digit_or_comma c0 = false
               | [] => True
               end).
  { destruct w as [|c0 w]; cbn [app].
    - destruct Hunit as [-> | ->]; reflexivity.
    - inversion Hw; subst. now apply space_not_digit_or_comma. }
  assert (Hu : unit_at (w ++ unit ++ post') = Some post').
  { unfold unit_at. rewrite drop_while_app by exact Hw.
    destruct Hunit as [-> | ->]; reflexivity. }
  erewrite search_from_here.
  2:{ rewrite match_at_sqft. cbn [app sqft_at]. rewrite Hc, <- !app_assoc.
      rewrite drop_while_app by assumption.
      rewrite (drop_while_stop _ _ Hh), Hu.
      rewrite (take_while_app digit_or_comma d _ Hd' Hh).
      reflexivity. }
  reflexivity.
Qed.

(** X19 on a number with a tab before ["sf"]. *)
Lemma sqft_of_number_and_unit_witness :
  total_rentable_square_footage
    (parse_key_data (u "Rentable: 45,250" ++ [9%N] ++ u "sf (approx.)"))
  = Some 45250%Z.
Proof.
  apply (sqft_of_number_and_unit (u "Rentable: ") (u "45,250") [9%N] (u "sf")
           (u " (approx.)")).
  - repeat constructor.
  - discriminate.
  - repeat constructor.
  - repeat constructor.
  - intros [H|[]]. discriminate.
  - now right.
Defined.

Lemma digit_plain x :
  Char.is_digit x = true ->
  Char.is_space x = false /\ Char.is_upper_az x = false /\ x <> Char.LF.
Proof. intros H. apply digit_or_comma_plain. now apply is_digit_or_comma. Qed.

Lemma space_not_digit c : Char.is_space c = true -> Char.is_digit c = false.
Proof.
  intros H. destruct (Char.is_digit c) eqn:E; [|reflexivity].
  apply digit_not_space in E. congruence.
Qed.

(** X20: when the square-feet pattern has no match, a number of digits
    with no digit before it, followed by white space (or none) and [K] or
    [k], gives a thousand times the number. *)
Theorem sqft_of_number_and_k (pre d w post : str) (k : N) :
  Forall (fun c => Char.is_digit c = false) pre ->
  d <> [] -> Forall (fun c => Char.is_digit c = true) d ->
  spaces w -> ~ In Char.LF w ->
  k = 75%N \/ k = 107%N ->
  search sqft_pattern
    (remove_extra_spaces_in_uppercase (pre ++ d ++ w ++ k :: post)) = None ->
  total_rentable_square_footage (parse_key_data (pre ++ d ++ w ++ k :: post))
  = option_map (fun n => (n * 1000)%Z) (PyStr.int d).
Proof.
  intros Hpre Hne Hd Hw Hno Hk Hsf. unfold parse_key_data.
  cbn [total_rentable_square_footage]. rewrite Hsf. clear Hsf.
  destruct d as [|c d]; [congruence|]. inversion Hd as [|? ? Hc Hd']; subst.
  assert (Hclean : exists X,
    remove_extra_spaces_in_uppercase (pre ++ (c :: d) ++ w ++ k :: post) =
    remove_extra_spaces_in_uppercase pre ++ (c :: d) ++ w ++ k :: X).
  { rewrite !normalizer_scan, !newlines_to_spaces_app.
    rewrite (newlines_to_spaces_id (c :: d)).
    2:{ intros Hin. rewrite Forall_forall in Hd.
        now destruct (digit_plain _ (Hd _ Hin)) as [_ [_ H]]. }
    rewrite (newlines_to_spaces_id w) by assumption.
    change (Spec.newlines_to_spaces (k :: post))
      with ((if N.eqb k Char.LF then Char.SPACE else k)
              :: Spec.newlines_to_spaces post).
    cbn [app]. destruct (digit_plain c Hc) as [Hs [Hu _]].
    rewrite scan_barrier by assumption.
    rewrite scan_no_upper.
    2:{ eapply Forall_impl; [|exact Hd']. intros x Hx. apply (digit_plain x Hx). }
    rewrite scan_none_spaces by exact Hw.
    destruct Hk as [-> | ->]; eexists; reflexivity. }
  destruct Hclean as [X ->]. unfold search.
  rewrite (search_skip_class k_pattern Char.is_digit);
    [|exact k_start|now apply normalizer_forall].
  assert (Hkw : word_char k = true) by (destruct Hk as [-> | ->]; reflexivity).
  assert (Hh : match w ++ k :: X with
               | c0 :: _ => Char.is_digit c0 = false
               | [] => True
               end).
  { destruct w as [|c0 w]; cbn [app].
    - now apply word_char_not_digit.
    - inversion Hw; subst. now apply space_not_digit. }
  erewrite search_from_here.
  2:{ rewrite match_at_k. cbn [app k_at]. rewrite Hc.
      rewrite drop_while_app by assumption.
      rewrite (drop_while_stop _ _ Hh).
      rewrite (drop_while_spaces_word w k X Hw Hkw).
      rewrite (take_while_app Char.is_digit d _ Hd' Hh).
      destruct Hk as [-> | ->]; reflexivity. }
  reflexivity.
Qed.

(** X20 on ["about 85 k"]. *)
Lemma sqft_of_number_and_k_witness :
  total_rentable_square_footage (parse_key_data (u "about 85 k in all"))
  = Some 85000%Z.
Proof.
  apply (sqft_of_number_and_k (u "about ") (u "85") (u " ") (u " in all") 107).
  - repeat constructor.
  - discriminate.
  - repeat constructor.
  - repeat constructor.
  - intros [H|[]]. discriminate.
  - now right.
  - vm_compute. reflexivity.
Defined.

Lemma int_nonneg x n : PyStr.int x = Some n -> (0 <= n)%Z.
Proof.
  unfold PyStr.int. destruct x as [|c x]; [discriminate|].
  destruct (Nat.ltb _ _); [discriminate|].
  destruct (PyStr.digits_value 0 (c :: x)) as [v|]; [|discriminate].
  intros [= <-]. apply N2Z.is_nonneg.
Qed.

(** X21: the square footage is never negative, and when it comes from the
    K pattern it is a multiple of 1000. *)
Theorem sqft_not_negative (s : str) (n : Z) :
  total_rentable_square_footage (parse_key_data s) = Some n ->
  (0 <= n)%Z
  /\ (search sqft_pattern (remove_extra_spaces_in_uppercase s) = None ->
      exists q, (0 <= q)%Z /\ n = (q * 1000)%Z).
Proof.
  unfold parse_key_data. cbn [total_rentable_square_footage].
  destruct (search sqft_pattern (remove_extra_spaces_in_uppercase s)) as [m|].
  - intros H. apply int_nonneg in H. split; [assumption|discriminate].
  - destruct (search k_pattern (remove_extra_spaces_in_uppercase s)) as [m|];
      [|discriminate].
    destruct (PyStr.int (group m 1)) as [q|] eqn:E; [|discriminate].
    cbn [option_map]. intros [= <-]. apply int_nonneg in E.
    split; [lia|]. intros _. now exists q.
Qed.

(** X21 on ["12 k"]. *)
Lemma sqft_not_negative_witness : (0 <= 12000)%Z.
Proof.
  apply (sqft_not_negative (u "12 k") 12000). vm_compute. reflexivity.
Defined.

Lemma digits_value_some x : forall acc,
  Forall (fun c => Char.is_digit c = true) x ->
  exists v, PyStr.digits_value acc x = Some v.
Proof.
  induction x as [|c x IH]; intros acc H; cbn [PyStr.digits_value].
  - now exists acc.
  - inversion H as [|? ? Hc Hx]; subst. unfold Char.is_digit in Hc.
    destruct (Char.digit_value c) as [d|]; [|discriminate]. now apply IH.
Qed.

(** X22: when the square-feet pattern matches, the field is null exactly
    when the matched number has no digit or has more digits than [int]
    converts. *)
Theorem sqft_null_iff (s : str) (m : match_) :
  search sqft_pattern (remove_extra_spaces_in_uppercase s) = Some m ->
  let sqft_str := Str.replace_char Char.COMMA [] (group m 1) in
  total_rentable_square_footage (parse_key_data s) = None <->
  sqft_str = [] \/ PyStr.int_max_str_digits < length sqft_str.
Proof.
  intros E sqft_str. unfold parse_key_data.
  cbn [total_rentable_square_footage]. rewrite E. fold sqft_str.
  pose proof (proj1 (int_argument_digits _ m) E) as Hd. fold sqft_str in Hd.
  unfold PyStr.int. destruct sqft_str as [|c x] eqn:Ex.
  - split; [now left|reflexivity].
  - destruct (Nat.ltb_spec PyStr.int_max_str_digits (length (c :: x))) as [Hl|Hl].
    + split; [now right|reflexivity].
    + destruct (digits_value_some (c :: x) 0%N Hd) as [v ->]. cbn [option_map].
      split; [discriminate|]. intros [H|H]; [discriminate|lia].
Qed.

(** X22 on a text whose number is one comma. *)
Lemma sqft_null_iff_witness :
  total_rentable_square_footage (parse_key_data (u "area: , sf")) = None.
Proof.
  apply (sqft_null_iff (u "area: , sf") (Match 6 (u ", sf") [(1, u ",")])).
  - vm_compute. reflexivity.
  - left. reflexivity.
Defined.
